(** * nf_tables core structures: a shallow embedding of
      [include/net/netfilter/nf_tables.h] and its properties.

    The header defines the data value held in registers and set elements,
    the register/type correspondence, the layout of the expressions of a
    rule, the chain structure and the set-backend interface.  Each part
    is embedded below as executable definitions; the theorems follow the
    definitions. *)

From Stdlib Require Import ZArith NArith List Bool Lia String Ascii.
From coqutil Require Import Byte Word.LittleEndianList.
From stdpp Require Import base option list gmap.

Local Open Scope Z_scope.

(* ===================================================================== *)
(** * Part I: definitions                                                *)
(* ===================================================================== *)

(** ** Object layout of the C types the header declares *)

#[local] Set Warnings "-register-all".

Module Layout.

(** The two data models the kernel is built for.  Pointers are 4 bytes
    on [ILP32] and 8 bytes on [LP64]. *)
Inductive abi := ILP32 | LP64.

(** The C types that occur in [struct nft_data]. *)
Inductive ctype :=
| Tu32
| Tptr (target : string)
| Tarray (elt : ctype) (n : Z)
| Tstruct (fields : list (string * ctype))
| Tunion (members : list (string * ctype))
| Taligned (a : Z) (t : ctype).

Definition align_up (n a : Z) : Z := ((n + a - 1) / a) * a.

Definition ptr_bytes (m : abi) : Z :=
  match m with ILP32 => 4 | LP64 => 8 end.

(** [__alignof__(u64)]: the preferred alignment of a 64-bit integer,
    8 on every data model. *)
Definition alignof_u64 : Z := 8.

Fixpoint alignof (m : abi) (t : ctype) : Z :=
  match t with
  | Tu32 => 4
  | Tptr _ => ptr_bytes m
  | Tarray elt _ => alignof m elt
  | Tstruct fs =>
      (fix go (l : list (string * ctype)) : Z :=
         match l with
         | [] => 1
         | (_, ft) :: l' => Z.max (alignof m ft) (go l')
         end) fs
  | Tunion ms =>
      (fix go (l : list (string * ctype)) : Z :=
         match l with
         | [] => 1
         | (_, ft) :: l' => Z.max (alignof m ft) (go l')
         end) ms
  | Taligned a t' => Z.max a (alignof m t')
  end.

Fixpoint sizeof (m : abi) (t : ctype) : Z :=
  match t with
  | Tu32 => 4
  | Tptr _ => ptr_bytes m
  | Tarray elt n => n * sizeof m elt
  | Tstruct fs =>
      align_up
        ((fix go (l : list (string * ctype)) (off : Z) : Z :=
            match l with
            | [] => off
            | (_, ft) :: l' =>
                go l' (align_up off (alignof m ft) + sizeof m ft)
            end) fs 0)
        (alignof m t)
  | Tunion ms =>
      align_up
        ((fix go (l : list (string * ctype)) : Z :=
            match l with
            | [] => 0
            | (_, ft) :: l' => Z.max (sizeof m ft) (go l')
            end) ms)
        (alignof m t)
  | Taligned a t' => align_up (sizeof m t') (alignof m t)
  end.

(** Byte offset of the named field of a struct. *)
Fixpoint field_offset_from (m : abi) (fs : list (string * ctype))
         (off : Z) (f : string) : option Z :=
  match fs with
  | [] => None
  | (g, ft) :: fs' =>
      let o := align_up off (alignof m ft) in
      if String.eqb f g then Some o
      else field_offset_from m fs' (o + sizeof m ft) f
  end.

Definition field_offset (m : abi) (fs : list (string * ctype))
           (f : string) : option Z :=
  field_offset_from m fs 0 f.

(** [u32 data[4]] *)
Definition nft_data_words : ctype := Tarray Tu32 4.

(** [struct { u32 verdict; struct nft_chain *chain; }] *)
Definition nft_data_verdict_fields : list (string * ctype) :=
  [("verdict"%string, Tu32); ("chain"%string, Tptr "nft_chain")].

(** The anonymous union of [struct nft_data]. *)
Definition nft_data_union : ctype :=
  Tunion [("data"%string, nft_data_words);
          (""%string, Tstruct nft_data_verdict_fields)].

(** [struct nft_data { union { ... }; }
      __attribute__((aligned(__alignof__(u64))))] *)
Definition nft_data : ctype :=
  Taligned alignof_u64 (Tstruct [(""%string, nft_data_union)]).

End Layout.

(** ** Data values: [struct nft_data] *)

Module DataValue.

(** A data value is handled through its object representation: the
    [sizeof (struct nft_data)] bytes it occupies, lowest address first. *)
Definition nft_data := list byte.

Definition NFT_DATA_SIZE : nat := 16.

Definition nft_data_wf (d : nft_data) : Prop := length d = NFT_DATA_SIZE.

(** Byte offset of [data[i]] inside the value. *)
Definition data_offset (i : nat) : nat := (4 * i)%nat.

(** How the machine lays a multi-byte integer out in memory. *)
Inductive byte_order := LittleEndian | BigEndian.

Definition in_order (bo : byte_order) (bs : list byte) : list byte :=
  match bo with
  | LittleEndian => bs
  | BigEndian => rev bs
  end.

(** Reading eight bytes at offset [off] as one [u64], as the casts to a
    [u64] pointer in [nft_data_copy] do; [None] when the access leaves
    the object. *)
Definition load_u64 (bo : byte_order) (m : list byte) (off : nat)
  : option Z :=
  if (off + 8 <=? length m)%nat
  then Some (le_combine (in_order bo (take 8 (drop off m))))
  else None.

(** Assigning the [u64] value [v] to the eight bytes at offset [off];
    [None] when the access leaves the object. *)
Definition store_u64 (bo : byte_order) (m : list byte) (off : nat) (v : Z)
  : option (list byte) :=
  if (off + 8 <=? length m)%nat
  then Some (take off m ++ in_order bo (le_split 8 v) ++ drop (off + 8) m)
  else None.

(** [nft_data_copy(dst, src)]: two 8-byte assignments, the first over
    [data[0..1]], the second over [data[2..3]].  The result is the new
    content of [*dst]. *)
Definition nft_data_copy (bo : byte_order) (dst src : nft_data)
  : option nft_data :=
  lo ← load_u64 bo src (data_offset 0);
  dst1 ← store_u64 bo dst (data_offset 0) lo;
  hi ← load_u64 bo src (data_offset 2);
  store_u64 bo dst1 (data_offset 2) hi.

(** The signature of the C library's [memcmp], which the header calls
    but does not define: two byte regions, a byte count, an [int]
    result. *)
Definition memcmp_fn := list byte → list byte → nat → Z.

(** What ISO C promises of [memcmp] as far as equality goes: the result
    is zero exactly when the first [n] bytes agree. *)
Definition memcmp_conforms (memcmp : memcmp_fn) : Prop :=
  ∀ (a b : list byte) (n : nat),
    (n ≤ length a)%nat → (n ≤ length b)%nat →
    (memcmp a b n = 0 ↔ take n a = take n b).

(** [nft_data_cmp(d1, d2, len)] *)
Definition nft_data_cmp (memcmp : memcmp_fn) (d1 d2 : nft_data)
           (len : nat) : Z :=
  memcmp d1 d2 len.

(** The generic [memcmp] loop: walk both regions while the bytes, read
    as [unsigned char], have a zero difference.  Used to instantiate
    [memcmp_fn]. *)
Fixpoint memcmp_generic (cs ct : list byte) (count : nat) : Z :=
  match count with
  | O => 0
  | S count' =>
      match cs, ct with
      | c1 :: cs', c2 :: ct' =>
          let res := byte.unsigned c1 - byte.unsigned c2 in
          if res =? 0 then memcmp_generic cs' ct' count' else res
      | _, _ => 0
      end
  end.

(** A plain byte-for-byte copy of [n] bytes starting at index [i]:
    [for (; n > 0; n--, i++) dst[i] = src[i];].  This is the reference
    [nft_data_copy] is compared with. *)
Fixpoint copy_bytes_from (n i : nat) (dst src : list byte)
  : option (list byte) :=
  match n with
  | O => Some dst
  | S n' =>
      b ← src !! i;
      if (i <? length dst)%nat
      then copy_bytes_from n' (S i) (<[i := b]> dst) src
      else None
  end.

Definition nft_data_copy_bytewise (dst src : nft_data) : option nft_data :=
  copy_bytes_from NFT_DATA_SIZE 0 dst src.

(** Two concrete values used to exercise the operations. *)
Definition sample_src : nft_data :=
  map byte.of_Z [1; 2; 3; 4; 5; 6; 7; 8; 9; 10; 11; 12; 13; 14; 15; 255].

Definition sample_dst : nft_data := repeat (byte.of_Z 0) NFT_DATA_SIZE.

End DataValue.

(** ** Registers and the type of data they hold *)

Module Registers.

(** [enum nft_data_types] *)
Inductive nft_data_types := NFT_DATA_VALUE | NFT_DATA_VERDICT.

Definition nft_data_types_eqb (a b : nft_data_types) : bool :=
  match a, b with
  | NFT_DATA_VALUE, NFT_DATA_VALUE => true
  | NFT_DATA_VERDICT, NFT_DATA_VERDICT => true
  | _, _ => false
  end.

(** [enum nft_registers] is declared in the user-space API header and is
    an [int] to the compiler.  The two enumerators the header names are
    taken as parameters. *)
Definition nft_registers := Z.

Class nft_registers_enum := {
  NFT_REG_VERDICT : nft_registers;
  NFT_REG_1 : nft_registers;
}.

Definition nft_dreg_to_type `{nft_registers_enum} (reg : nft_registers)
  : nft_data_types :=
  if reg =? NFT_REG_VERDICT then NFT_DATA_VERDICT else NFT_DATA_VALUE.

Definition nft_type_to_reg `{nft_registers_enum} (type : nft_data_types)
  : nft_registers :=
  if nft_data_types_eqb type NFT_DATA_VERDICT
  then NFT_REG_VERDICT else NFT_REG_1.

(** An enumeration with the verdict register first. *)
Definition sample_registers : nft_registers_enum :=
  {| NFT_REG_VERDICT := 0; NFT_REG_1 := 1 |}.

End Registers.

(** ** Rules and their expressions *)

Module Rule.

(** [struct nft_expr_ops]: the operations descriptor shared by the
    expressions of one kind.  The function pointers play no part in the
    layout of a rule and are left out. *)
Record nft_expr_ops := {
  name : string;
  maxattr : N;
  size : N;      (* full expression size, including private data size *)
}.

(** [struct nft_expr]: a pointer to the descriptor, then the private
    data. *)
Record nft_expr := {
  ops : nft_expr_ops;
  expr_data : list byte;
}.

(** [struct nft_rule].  The flexible array [data] is seen through the
    expression objects that live in it: [data !! off] is the
    [struct nft_expr] whose first byte is [&rule->data[off]], if one was
    stored there.  A pointer into the rule is its byte offset from
    [&rule->data[0]]. *)
Record nft_rule := {
  handle : N;                (* 48 bits *)
  dlen : N;                  (* 16 bits *)
  data : gmap N nft_expr;
}.

(** [NFT_EXPR_SIZE(size)]: the header of an expression (its [ops]
    pointer) followed by the private data, rounded up to the alignment
    of [struct nft_expr]; as an exact number, which is the macro's
    value while it does not overflow [size_t]
    ([RuleMachine.NFT_EXPR_SIZE] below computes in [size_t]). *)
Definition NFT_EXPR_SIZE (m : Layout.abi) (priv_size : Z) : Z :=
  Layout.ptr_bytes m + Layout.align_up priv_size (Layout.ptr_bytes m).

Definition nft_expr_first (rule : nft_rule) : N := 0%N.

(** [nft_expr_next(expr)] reads [expr->ops->size]; [None] when no
    expression lives at [expr].  Offsets are exact numbers here, which
    is what the pointer is while it stays inside the rule; the wrapping
    pointer addition of the machine is in [RuleMachine] below. *)
Definition nft_expr_next (rule : nft_rule) (expr : N) : option N :=
  e ← data rule !! expr;
  Some (expr + size (ops e))%N.

Definition nft_expr_last (rule : nft_rule) : N := dlen rule.

(** How a run of the iteration ends: the end marker was reached, with
    the expressions visited on the way and their offsets; or the loop
    dereferenced an offset at which the rule holds no expression; or
    the iteration budget ran out with the loop still going. *)
Inductive iter_result :=
| Done (visited : list (N * nft_expr))
| Fault (at_off : N)
| OutOfFuel.

Definition visit (x : N * nft_expr) (r : iter_result) : iter_result :=
  match r with
  | Done v => Done (x :: v)
  | Fault a => Fault a
  | OutOfFuel => OutOfFuel
  end.

(** The body of [nft_rule_for_each_expr], from the current [expr]:
    test [expr != last], run the loop body on [expr] (here: record it),
    advance with [nft_expr_next]. *)
Fixpoint for_each_from (fuel : nat) (rule : nft_rule) (expr last : N)
  : iter_result :=
  if (expr =? last)%N then Done []
  else
    match fuel with
    | O => OutOfFuel
    | S fuel' =>
        match data rule !! expr, nft_expr_next rule expr with
        | Some e, Some next =>
            visit (expr, e) (for_each_from fuel' rule next last)
        | _, _ => Fault expr
        end
    end.

Definition nft_rule_for_each_expr (fuel : nat) (rule : nft_rule)
  : iter_result :=
  for_each_from fuel rule (nft_expr_first rule) (nft_expr_last rule).

(** *** What it means for a rule to store a list of expressions *)

Definition sizes_of (es : list nft_expr) : list N :=
  map (λ e, size (ops e)) es.

Definition total (sizes : list N) : N := foldr N.add 0%N sizes.

(** The expressions [es] lie one after the other from offset [off]. *)
Fixpoint stored_at (d : gmap N nft_expr) (off : N) (es : list nft_expr)
  : Prop :=
  match es with
  | [] => True
  | e :: es' => d !! off = Some e ∧ stored_at d (off + size (ops e))%N es'
  end.

(** The offsets at which [es] lie when the first is at [off]. *)
Fixpoint offsets_from (off : N) (es : list nft_expr) : list N :=
  match es with
  | [] => []
  | e :: es' => off :: offsets_from (off + size (ops e))%N es'
  end.

(** [rule] stores exactly the expressions [es]: contiguously from offset
    0, over [dlen] bytes in total, each of them occupying at least one
    byte. *)
Definition rule_stores (rule : nft_rule) (es : list nft_expr) : Prop :=
  stored_at (data rule) 0 es ∧
  dlen rule = total (sizes_of es) ∧
  Forall (λ e, (0 < size (ops e))%N) es.

(** Writing [es] one after the other from [off]. *)
Fixpoint layout (off : N) (es : list nft_expr) : gmap N nft_expr :=
  match es with
  | [] => ∅
  | e :: es' => <[off := e]> (layout (off + size (ops e))%N es')
  end.

Definition mk_rule (h : N) (es : list nft_expr) : nft_rule :=
  {| handle := h; dlen := total (sizes_of es); data := layout 0 es |}.

(** Sample rules. *)
Definition mk_expr (n : string) (sz : N) : nft_expr :=
  {| ops := {| name := n; maxattr := 0; size := sz |}; expr_data := [] |}.

Definition sample_exprs : list nft_expr :=
  [mk_expr "payload" 16; mk_expr "cmp" 32; mk_expr "immediate" 40].

Definition sample_rule : nft_rule := mk_rule 7 sample_exprs.

(** The same expressions under a [dlen] that no cumulative size hits. *)
Definition short_rule : nft_rule :=
  {| handle := 8; dlen := 20; data := layout 0 sample_exprs |}.

(** A rule whose only expression declares size 0. *)
Definition stuck_rule : nft_rule :=
  {| handle := 9; dlen := 8; data := {[ 0%N := mk_expr "nop" 0 ]} |}.

End Rule.

(** ** Failures *)

Module Errors.

(** Modelled from the spec: the failures the engine reports to the
    control plane.  The header itself only has [int] results. *)
Inductive nft_error :=
| InvalidType | InvalidLength | InvalidRegister | UnknownChain
| TypeMismatch | Exists | NotFound | UnsupportedFeature
| CycleOrDepthExceeded.

End Errors.

(** ** Chains *)

Module Chain.
Export Errors.

Definition NFT_JUMP_STACK_SIZE : nat := 16.

(** Conversion of an [int] to the unsigned field types. *)
Definition to_u8 (z : Z) : Z := z mod 2 ^ 8.
Definition to_u16 (z : Z) : Z := z mod 2 ^ 16.
Definition to_u64 (z : Z) : Z := z mod 2 ^ 64.

(** [struct nft_chain].  The list heads and the RCU head carry no value
    of their own and are left out. *)
Record nft_chain := {
  handle : Z;      (* u64 *)
  flags : Z;       (* u8, bitmask of enum nft_chain_flags *)
  use : Z;         (* u16, number of jump references to this chain *)
  level : Z;       (* u16, length of longest path to this chain *)
  name : string;
}.


(** [chain->use = v] and [chain->level = v]: the assigned value is
    converted to the 16-bit type of the field. *)
Definition set_use (c : nft_chain) (v : Z) : nft_chain :=
  {| handle := handle c; flags := flags c; use := to_u16 v;
     level := level c; name := name c |}.

Definition set_level (c : nft_chain) (v : Z) : nft_chain :=
  {| handle := handle c; flags := flags c; use := use c;
     level := to_u16 v; name := name c |}.

(** Modelled from the spec: taking a reference on a chain increments
    its [use] count.  The code that does so is not part of the header;
    the sum is assigned to the [u16] field. *)
Definition chain_use_inc (c : nft_chain) : nft_chain := set_use c (use c + 1).

(** *** The jump graph and rule insertion *)

(** Modelled from the spec: the chains of a table and the jump graph
    among them.  The code that builds tables and inserts rules is not
    part of the header.  Chains are named by their position in [chains];
    [(a, b)] in [jumps] stands for one jump or goto expression, in a
    rule of chain [a], whose target is chain [b]. *)
Record table := {
  chains : list nft_chain;
  jumps : list (nat * nat);
}.

(** Longest jump path ending at chain [c], explored backwards over at
    most [fuel] jumps. *)
Fixpoint depth (g : list (nat * nat)) (fuel : nat) (c : nat) : nat :=
  match fuel with
  | O => O
  | S fuel' =>
      max_list
        ((λ e, if (e.2 =? c)%nat then S (depth g fuel' e.1) else O) <$> g)
  end.

(** One jump more than the stack holds is enough to tell that a path is
    too long, or that it goes round a cycle. *)
Definition path_level (g : list (nat * nat)) (c : nat) : nat :=
  depth g (S NFT_JUMP_STACK_SIZE) c.

Definition within_capacity (g : list (nat * nat)) (nchains : nat) : bool :=
  forallb (λ c, (path_level g c <=? NFT_JUMP_STACK_SIZE)%nat) (seq 0 nchains).

Definition valid_chain (t : table) (c : nat) : bool :=
  (c <? length (chains t))%nat.

Definition jump_edges (src : nat) (targets : list nat) : list (nat * nat) :=
  (λ tg, (src, tg)) <$> targets.

(** Taking a reference on a jump target. *)
Definition take_reference (cs : list nft_chain) (tg : nat) : list nft_chain :=
  alter chain_use_inc tg cs.

(** Recomputing every chain's [level] from the jump graph. *)
Definition relevel (g : list (nat * nat)) (cs : list nft_chain)
  : list nft_chain :=
  imap (λ c ch, set_level ch (Z.of_nat (path_level g c))) cs.

(** Modelled from the spec: creating a chain.  It starts with no jump
    reference and at level 0. *)
Definition add_chain (t : table) (h : Z) (n : string) : table :=
  {| chains := chains t ++
               [{| handle := to_u64 h; flags := 0; use := 0; level := 0;
                   name := n |}];
     jumps := jumps t |}.

(** Modelled from the spec: inserting into chain [src] a rule whose
    jump and goto expressions name the chains [targets].  The insertion
    is refused, and the table left as it was, when a chain does not
    exist or when accepting the rule would close a cycle or make some
    jump path longer than the jump stack; otherwise the targets gain a
    reference each and the levels are recomputed. *)
Definition insert_rule (t : table) (src : nat) (targets : list nat)
  : option nft_error * table :=
  if negb (forallb (valid_chain t) (src :: targets))
  then (Some UnknownChain, t)
  else
    let g' := jump_edges src targets ++ jumps t in
    if within_capacity g' (length (chains t))
    then (None,
          {| chains := relevel g' (foldl take_reference (chains t) targets);
             jumps := g' |})
    else (Some CycleOrDepthExceeded, t).

Definition empty_table : table := {| chains := []; jumps := [] |}.

(** The configurations a table can be brought into. *)
Inductive reachable : table → Prop :=
| reachable_empty : reachable empty_table
| reachable_add_chain t h n :
    reachable t → reachable (add_chain t h n)
| reachable_insert_rule t src targets :
    reachable t → reachable (insert_rule t src targets).2.

(** [jump_walk g a c n]: [n] jumps of [g] lead from chain [a] to chain
    [c]. *)
Inductive jump_walk (g : list (nat * nat)) : nat → nat → nat → Prop :=
| jump_walk_nil a : jump_walk g a a 0
| jump_walk_snoc a b c n :
    jump_walk g a b n → (b, c) ∈ g → jump_walk g a c (S n).

(** Some jump path of length [n] reaches [c]. *)
Definition jump_path (g : list (nat * nat)) (c n : nat) : Prop :=
  ∃ a, jump_walk g a c n.

(** The graph has a cycle. *)
Definition jump_cycle (g : list (nat * nat)) : Prop :=
  ∃ c n, jump_walk g c c (S n).

(** Jumps connect existing chains, and every chain's stored [level] is
    the longest-path length computed from the graph, within the
    capacity of the jump stack. *)
Definition table_inv (t : table) : Prop :=
  (∀ a b, (a, b) ∈ jumps t →
          (a < length (chains t))%nat ∧ (b < length (chains t))%nat) ∧
  (∀ c ch, chains t !! c = Some ch →
           level ch = Z.of_nat (path_level (jumps t) c) ∧
           (path_level (jumps t) c ≤ NFT_JUMP_STACK_SIZE)%nat).

(** A table with a chain of three jumps. *)
Definition sample_table : table :=
  (insert_rule
     (insert_rule
        (add_chain (add_chain (add_chain empty_table 1 "input") 2 "web")
                   3 "log")
        0%nat [1%nat]).2
     1%nat [2%nat]).2.

(** Sixteen jumps in a row, [0 -> 1 -> ... -> 16], fill the jump stack. *)
Definition full_depth_table : table :=
  foldl (λ t c, (insert_rule t c [S c]).2)
        (foldl (λ t c, add_chain t (Z.of_nat c) "c") empty_table (seq 0 18))
        (seq 0 16).

End Chain.

(** ** Sets *)

Module SetOps.
Import DataValue.

(** [struct nft_set_elem] *)
Record nft_set_elem := {
  cookie : Z;
  key : nft_data;
  data : nft_data;
  flags : Z;       (* u32 *)
}.

(** [struct nft_set], over the type [P] of the private data of its
    implementation. *)
Record nft_set (P : Type) := {
  name : string;
  ktype : Z;       (* u32 *)
  dtype : Z;       (* u32 *)
  set_flags : Z;   (* u16 *)
  klen : nat;      (* u8 *)
  dlen : nat;      (* u8 *)
  priv : P;
}.

Arguments name {P}.
Arguments ktype {P}.
Arguments dtype {P}.
Arguments set_flags {P}.
Arguments klen {P}.
Arguments dlen {P}.
Arguments priv {P}.

(** The outcome of an operation that can fail, as the engine names it;
    [None] is success. *)
Definition status := option Errors.nft_error.

(** [struct nft_set_ops]: what an implementation provides.  A C
    operation that writes through a pointer returns the new content
    here: [lookup] the content of [*data], [get] the completed element,
    [insert] and [remove] the set. *)
Class nft_set_ops (P : Type) := {
  lookup : nft_set P → nft_data → nft_data → bool * nft_data;
  get : nft_set P → nft_set_elem → status * nft_set_elem;
  insert : nft_set P → nft_set_elem → status * nft_set P;
  remove : nft_set P → nft_set_elem → nft_set P;
  walk : nft_set P → list nft_set_elem;
  features : Z;    (* u32 *)
}.

Definition with_priv {P : Type} (s : nft_set P) (p : P) : nft_set P :=
  {| name := name s; ktype := ktype s; dtype := dtype s;
     set_flags := set_flags s; klen := klen s; dlen := dlen s; priv := p |}.

(** Two keys are the same key of the set when [nft_data_cmp] finds no
    difference over the key length. *)
Definition same_key (klen : nat) (k1 k2 : nft_data) : bool :=
  nft_data_cmp memcmp_generic k1 k2 klen =? 0.

(** First element stored under [k]. *)
Fixpoint find_elem (klen : nat) (elems : list nft_set_elem) (k : nft_data)
  : option nft_set_elem :=
  match elems with
  | [] => None
  | e :: elems' =>
      if same_key klen (key e) k then Some e else find_elem klen elems' k
  end.

(** Unlinking the elements stored under [k]. *)
Fixpoint unlink (klen : nat) (elems : list nft_set_elem) (k : nft_data)
  : list nft_set_elem :=
  match elems with
  | [] => []
  | e :: elems' =>
      if same_key klen (key e) k then unlink klen elems' k
      else e :: unlink klen elems' k
  end.

(** Modelled from the spec: a set implementation, which the header only
    declares the interface of.  The private data is the list of the
    elements, newest first.  [lookup] reports whether the key is
    present and, if so, delivers the data stored with it; [get] finds
    the element again; [insert] answers [Exists] for a key that is
    present, without touching the set, and links the element otherwise;
    [remove] unlinks the element; [walk] enumerates the elements. *)
#[export] Instance list_set_ops : nft_set_ops (list nft_set_elem) := {
  lookup s k out :=
    match find_elem (klen s) (priv s) k with
    | Some e => (true, data e)
    | None => (false, out)
    end;
  get s elem :=
    match find_elem (klen s) (priv s) (key elem) with
    | Some e => (None, e)
    | None => (Some Errors.NotFound, elem)
    end;
  insert s elem :=
    match find_elem (klen s) (priv s) (key elem) with
    | Some _ => (Some Errors.Exists, s)
    | None => (None, with_priv s (elem :: priv s))
    end;
  remove s elem := with_priv s (unlink (klen s) (priv s) (key elem));
  walk s := priv s;
  features := 0;
}.

(** Sample set: a map from 4-byte keys. *)
Definition sample_elem : nft_set_elem :=
  {| cookie := 0; key := sample_src; data := sample_dst; flags := 0 |}.

Definition sample_set : nft_set (list nft_set_elem) :=
  {| name := "ports"; ktype := 13; dtype := 0; set_flags := 0;
     klen := 4; dlen := 16; priv := [] |}.

End SetOps.

(** ** A data value inside a larger object *)

Module DataValueMore.
Import DataValue.

(** A data value is often a member of a larger object (the key and the
    data of a set element, one register of the register file).  Both
    regions below start at the value and run on into what follows it in
    memory. *)
Definition sample_region : list byte :=
  sample_dst ++ map byte.of_Z [170; 187; 204; 221].

End DataValueMore.

(** ** The shape of a rule's fields and of an expression *)

Module RuleShape.
Import Rule.

(** The bit-fields of [struct nft_rule]: [handle] has 48 bits, [dlen]
    has 16. *)
Definition nft_rule_wf (rule : nft_rule) : Prop :=
  (handle rule < 2 ^ 48)%N ∧ (dlen rule < 2 ^ 16)%N.

(** [struct nft_expr { const struct nft_expr_ops *ops;
    unsigned char data[]; }]: the flexible array adds no size. *)
Definition nft_expr_t : Layout.ctype :=
  Layout.Tstruct [("ops"%string, Layout.Tptr "nft_expr_ops")].

(** The expression's declared size is [NFT_EXPR_SIZE] of the size of
    some private data. *)
Definition sized_by_macro (m : Layout.abi) (e : nft_expr) : Prop :=
  ∃ priv_size, 0 ≤ priv_size ∧
               Z.of_N (size (ops e)) = NFT_EXPR_SIZE m priv_size.


(** Three expressions sized by the macro for private data of 5, 8 and 0
    bytes on [LP64]. *)
Definition macro_sized_exprs : list nft_expr :=
  [mk_expr "meta" 16; mk_expr "cmp" 16; mk_expr "counter" 8].

Definition macro_sized_rule : nft_rule := mk_rule 11 macro_sized_exprs.

End RuleShape.

(** ** Module aliases *)

Module ModuleAlias.

Local Open Scope string_scope.

(** The alias macros paste string literals together; [family] below is
    the text [__stringify(family)] yields.  [MODULE_ALIAS] records the
    resulting string as it is. *)
Definition MODULE_ALIAS_NFT_FAMILY (family : string) : string :=
  "nft-afinfo-" ++ family.

Definition MODULE_ALIAS_NFT_TABLE (family name : string) : string :=
  "nft-table-" ++ family ++ "-" ++ name.

Definition MODULE_ALIAS_NFT_EXPR (name : string) : string :=
  "nft-expr-" ++ name.

Definition MODULE_ALIAS_NFT_SET : string := "nft-set".

(** The text has no ['-'] in it, as the text of a number has none. *)
Fixpoint no_dash (s : string) : bool :=
  match s with
  | EmptyString => true
  | String c s' => negb (Ascii.eqb c "-"%char) && no_dash s'
  end.

End ModuleAlias.

(** ** Layout of a set element *)

Module SetElemLayout.
Import Layout.

(** [struct nft_set_elem { void *cookie; struct nft_data key;
    struct nft_data data; u32 flags; }] *)
Definition nft_set_elem_fields : list (string * ctype) :=
  [("cookie"%string, Tptr "void"); ("key"%string, nft_data);
   ("data"%string, nft_data); ("flags"%string, Tu32)].

Definition nft_set_elem : ctype := Tstruct nft_set_elem_fields.

End SetElemLayout.

(** ** The iteration at machine level *)

Module RuleMachine.
Import Rule.

(** In [Rule] above an offset into a rule is an exact number, which is
    what the offsets of a rule's own expressions are.  Here pointers
    are what the machine has: a pointer into a rule is its offset from
    [&rule->data[0]] modulo the range of a pointer, so that two
    pointers are equal exactly when their offsets agree modulo that
    range, and adding to a pointer wraps. *)
Definition ptr_bits (m : Layout.abi) : N :=
  match m with Layout.ILP32 => 32%N | Layout.LP64 => 64%N end.

Definition ptr_wrap (m : Layout.abi) (a : N) : N := (a mod 2 ^ ptr_bits m)%N.

(** The value of the [unsigned int] field [ops->size]. *)
Definition ops_size (o : nft_expr_ops) : N := (size o mod 2 ^ 32)%N.

(** The value of the 16-bit field [rule->dlen]. *)
Definition rule_dlen (rule : nft_rule) : N := (dlen rule mod 2 ^ 16)%N.

Definition nft_expr_first (m : Layout.abi) (rule : nft_rule) : N := 0%N.

(** [nft_expr_next(expr)]: the pointer [expr] advanced by
    [expr->ops->size] bytes; [None] when no expression lives at
    [expr]. *)
Definition nft_expr_next (m : Layout.abi) (rule : nft_rule) (expr : N)
  : option N :=
  e ← data rule !! expr;
  Some (ptr_wrap m (expr + ops_size (ops e))).

(** [nft_expr_last(rule)]: the address of [rule->data[rule->dlen]]. *)
Definition nft_expr_last (m : Layout.abi) (rule : nft_rule) : N :=
  ptr_wrap m (nft_expr_first m rule + rule_dlen rule).

(** The body of [nft_rule_for_each_expr] from the current [expr]. *)
Fixpoint for_each_from (m : Layout.abi) (fuel : nat) (rule : nft_rule)
         (expr last : N) : iter_result :=
  if (expr =? last)%N then Done []
  else
    match fuel with
    | O => OutOfFuel
    | S fuel' =>
        match data rule !! expr, nft_expr_next m rule expr with
        | Some e, Some next =>
            visit (expr, e) (for_each_from m fuel' rule next last)
        | _, _ => Fault expr
        end
    end.

Definition nft_rule_for_each_expr (m : Layout.abi) (fuel : nat)
           (rule : nft_rule) : iter_result :=
  for_each_from m fuel rule (nft_expr_first m rule) (nft_expr_last m rule).

(** Starting at pointer [p], the expressions met by following
    [ops->size] have the sizes [sizes], in this order. *)
Fixpoint successive (m : Layout.abi) (rule : nft_rule) (p : N)
         (sizes : list N) : Prop :=
  match sizes with
  | [] => True
  | s :: ss =>
      (∃ e, data rule !! p = Some e ∧ ops_size (ops e) = s) ∧
      successive m rule (ptr_wrap m (p + s)) ss
  end.

(** The sizes a run read, in the order of its visits. *)
Definition sizes_read (v : list (N * nft_expr)) : list N :=
  (λ x, ops_size (ops x.2)) <$> v.

(** The cumulative sizes from offset 0 land exactly on [dlen], every
    step being strictly positive. *)
Definition hits_dlen_exactly (m : Layout.abi) (rule : nft_rule) : Prop :=
  ∃ sizes, successive m rule 0 sizes ∧
           Forall (λ s, (0 < s)%N) sizes ∧
           total sizes = rule_dlen rule.

(** The cumulative sizes from offset 0 land on [dlen] modulo the range
    of a pointer, every step being strictly positive. *)
Definition hits_dlen (m : Layout.abi) (rule : nft_rule) : Prop :=
  ∃ sizes, successive m rule 0 sizes ∧
           Forall (λ s, (0 < s)%N) sizes ∧
           ptr_wrap m (total sizes) = nft_expr_last m rule.

(** Some run of successive sizes from offset 0 sums to [dlen] modulo
    the range of a pointer. *)
Definition sums_to_dlen (m : Layout.abi) (rule : nft_rule) : Prop :=
  ∃ sizes, successive m rule 0 sizes ∧
           ptr_wrap m (total sizes) = nft_expr_last m rule.

(** Every expression object of the rule lies inside the [dlen] bytes of
    [data]. *)
Definition data_within (rule : nft_rule) : Prop :=
  map_Forall (λ off e, (off + size (ops e) ≤ dlen rule)%N) (data rule).

(** Two expressions whose sizes add up to [dlen] only modulo 2^32: the
    second one lies past the [dlen] bytes of the rule. *)
Definition wrap_rule : nft_rule :=
  {| handle := 12; dlen := 8;
     data := {[ 0%N := mk_expr "first" 16;
                16%N := mk_expr "second" 4294967288 ]} |}.

(** *** [NFT_EXPR_SIZE] in the arithmetic of [size_t] *)

Definition size_t_wrap (m : Layout.abi) (z : Z) : Z :=
  z mod 2 ^ Z.of_N (ptr_bits m).

(** [ALIGN(x, a)] comes from [linux/kernel.h], not from this header: it
    is [(x + (a - 1)) & ~(a - 1)], computed in the type of [x]. *)
Definition ALIGN (m : Layout.abi) (x a : Z) : Z :=
  Z.land (size_t_wrap m (x + (a - 1))) (size_t_wrap m (Z.lnot (a - 1))).

(** [NFT_EXPR_SIZE(size)] *)
Definition NFT_EXPR_SIZE (m : Layout.abi) (size : Z) : Z :=
  size_t_wrap m
    (Layout.sizeof m RuleShape.nft_expr_t
     + ALIGN m size (Layout.alignof m RuleShape.nft_expr_t)).

End RuleMachine.

(** ** A chain that many rules jump to *)

Module ChainUse.
Import Chain.




End ChainUse.

(* ===================================================================== *)
(** * Part II: properties                                                *)
(* ===================================================================== *)

(** ** Layout of [struct nft_data] *)

Module LayoutFacts.
Import Layout.

Lemma verdict_struct_size (m : abi) :
  sizeof m (Tstruct nft_data_verdict_fields) = 2 * ptr_bytes m.
Proof. destruct m; reflexivity. Qed.

Lemma chain_field_offset (m : abi) :
  field_offset m nft_data_verdict_fields "chain" = Some (ptr_bytes m).
Proof. destruct m; reflexivity. Qed.

(** C2: on both data models [struct nft_data] occupies exactly 16 bytes
    and is aligned to 8 bytes; it wraps a union of two views, the generic
    value [u32 data[4]] (four 32-bit words, 16 bytes) and the verdict
    view, a 32-bit verdict code at offset 0 followed by a pointer to the
    target [struct nft_chain], which fits in the 16 bytes. *)
Theorem nft_data_layout (m : abi) :
  sizeof m nft_data = 16 ∧
  alignof m nft_data = 8 ∧
  nft_data = Taligned alignof_u64 (Tstruct [(""%string, nft_data_union)]) ∧
  nft_data_union =
    Tunion [("data"%string, Tarray Tu32 4);
            (""%string,
             Tstruct [("verdict"%string, Tu32);
                      ("chain"%string, Tptr "nft_chain")])] ∧
  sizeof m (Tarray Tu32 4) = 16 ∧
  sizeof m Tu32 = 4 ∧
  field_offset m nft_data_verdict_fields "verdict" = Some 0 ∧
  field_offset m nft_data_verdict_fields "chain" = Some (ptr_bytes m) ∧
  sizeof m (Tstruct nft_data_verdict_fields) ≤ sizeof m nft_data.
Proof. destruct m; repeat split; vm_compute; congruence. Qed.

(** The object representation used for data values has the size the
    layout rules give, and [data[i]] lies [i] words into it. *)
Lemma object_representation_size (m : abi) :
  sizeof m nft_data = Z.of_nat DataValue.NFT_DATA_SIZE ∧
  ∀ i, Z.of_nat (DataValue.data_offset i) = Z.of_nat i * sizeof m Tu32.
Proof.
  split; [destruct m; reflexivity |].
  intros i. unfold DataValue.data_offset. simpl sizeof. lia.
Qed.

End LayoutFacts.

(** ** Copying and comparing data values *)

Module DataValueFacts.
Import DataValue.

Lemma in_order_involutive bo bs : in_order bo (in_order bo bs) = bs.
Proof. destruct bo; simpl; [done | apply rev_involutive]. Qed.

Lemma in_order_length bo bs : length (in_order bo bs) = length bs.
Proof. destruct bo; simpl; [done | apply length_rev]. Qed.

(** A [u64] read out of memory and written back yields the bytes that
    were read, whatever the byte order. *)
Lemma split_combine_in_order bo (bs : list byte) :
  length bs = 8%nat →
  in_order bo (le_split 8 (le_combine (in_order bo bs))) = bs.
Proof.
  intros Hlen.
  replace 8%nat with (length (in_order bo bs))
    by (rewrite in_order_length; exact Hlen).
  rewrite split_le_combine. apply in_order_involutive.
Qed.

Lemma load_u64_Some bo (m : list byte) off :
  (off + 8 ≤ length m)%nat →
  load_u64 bo m off = Some (le_combine (in_order bo (take 8 (drop off m)))).
Proof.
  intros H. unfold load_u64.
  destruct (Nat.leb_spec (off + 8) (length m)); [done | lia].
Qed.

Lemma load_u64_None bo (m : list byte) off :
  (length m < off + 8)%nat → load_u64 bo m off = None.
Proof.
  intros H. unfold load_u64.
  destruct (Nat.leb_spec (off + 8) (length m)); [lia | done].
Qed.

(** Storing at [off] what was loaded from [src] at [off] transplants the
    eight bytes. *)
Lemma store_loaded_u64 bo (m src : list byte) off v :
  load_u64 bo src off = Some v →
  (off + 8 ≤ length m)%nat →
  store_u64 bo m off v =
    Some (take off m ++ take 8 (drop off src) ++ drop (off + 8) m).
Proof.
  unfold load_u64, store_u64. intros Hl Hm.
  destruct (Nat.leb_spec (off + 8) (length src)); [| discriminate].
  destruct (Nat.leb_spec (off + 8) (length m)); [| lia].
  injection Hl as <-. do 3 f_equal.
  apply split_combine_in_order.
  rewrite length_take, length_drop. lia.
Qed.

Lemma nft_data_copy_is_src bo (dst src : nft_data) :
  nft_data_wf dst → nft_data_wf src → nft_data_copy bo dst src = Some src.
Proof.
  unfold nft_data_wf, NFT_DATA_SIZE. intros Hd Hs.
  unfold nft_data_copy.
  change (data_offset 0) with 0%nat. change (data_offset 2) with 8%nat.
  pose proof (load_u64_Some bo src 0) as Hlo.
  pose proof (load_u64_Some bo src 8) as Hhi.
  rewrite Hlo by lia. cbn [mbind option_bind].
  rewrite (store_loaded_u64 bo dst src 0 _ (Hlo ltac:(lia))) by lia.
  cbn [mbind option_bind].
  rewrite Hhi by lia. cbn [mbind option_bind].
  rewrite (store_loaded_u64 bo _ src 8 _ (Hhi ltac:(lia)))
    by (rewrite !length_app, !length_take, !length_drop; lia).
  f_equal.
  do 17 (destruct src as [| ? src]; try discriminate).
  do 17 (destruct dst as [| ? dst]; try discriminate).
  reflexivity.
Qed.

Lemma copy_bytes_from_spec n : ∀ i (dst src : list byte),
  (i + n ≤ length src)%nat → (i + n ≤ length dst)%nat →
  copy_bytes_from n i dst src =
    Some (take i dst ++ take n (drop i src) ++ drop (i + n) dst).
Proof.
  induction n as [| n IH]; intros i dst src Hs Hd; simpl.
  - rewrite Nat.add_0_r, take_drop. reflexivity.
  - destruct (lookup_lt_is_Some_2 src i ltac:(lia)) as [b Hb].
    rewrite Hb. cbn [mbind option_bind].
    destruct (Nat.ltb_spec i (length dst)); [| lia].
    rewrite IH by (rewrite ?length_insert; lia).
    f_equal.
    rewrite (take_S_r (<[i:=b]> dst) i b)
      by (apply list_lookup_insert_eq; lia).
    rewrite take_insert_ge by lia.
    rewrite drop_insert_lt by lia.
    rewrite (drop_S src b i Hb). cbn [take].
    replace (S i + n)%nat with (i + S n)%nat by lia.
    rewrite <- app_assoc. reflexivity.
Qed.

Lemma nft_data_copy_bytewise_is_src (dst src : nft_data) :
  nft_data_wf dst → nft_data_wf src →
  nft_data_copy_bytewise dst src = Some src.
Proof.
  unfold nft_data_wf, nft_data_copy_bytewise, NFT_DATA_SIZE. intros Hd Hs.
  rewrite copy_bytes_from_spec by lia.
  rewrite drop_0, (drop_ge dst) by lia.
  rewrite (take_ge src) by lia. rewrite app_nil_r. reflexivity.
Qed.

(** The generic loop meets the contract asked of [memcmp]. *)
Lemma memcmp_generic_conforms : memcmp_conforms memcmp_generic.
Proof.
  intros a b n. revert a b.
  induction n as [| n IH]; intros a b Ha Hb; [by destruct a, b |].
  destruct a as [| c1 a]; [simpl in Ha; lia |].
  destruct b as [| c2 b]; [simpl in Hb; lia |].
  simpl in Ha, Hb. cbn [memcmp_generic take].
  destruct (Z.eqb_spec (byte.unsigned c1 - byte.unsigned c2) 0) as [E | E].
  - assert (c1 = c2) as -> by (apply byte.unsigned_inj; lia).
    rewrite IH by lia. split; [intros -> | intros [= ->]]; done.
  - split; [done |]. intros [= -> _]. lia.
Qed.

(** C3: the two 8-byte assignments of [nft_data_copy] compute what a
    byte-for-byte copy of the 16 bytes computes: for every source value
    and every destination, both succeed with the same result, and in
    that result each of the 16 bytes equals the byte of the source at
    the same index.  This holds for either byte order. *)
Theorem nft_data_copy_refines_bytewise bo (dst src : nft_data) :
  nft_data_wf dst → nft_data_wf src →
  nft_data_copy bo dst src = nft_data_copy_bytewise dst src ∧
  ∃ dst', nft_data_copy bo dst src = Some dst' ∧
          nft_data_wf dst' ∧
          ∀ i, (i < NFT_DATA_SIZE)%nat → dst' !! i = src !! i.
Proof.
  intros Hd Hs.
  rewrite nft_data_copy_is_src, nft_data_copy_bytewise_is_src by done.
  split; [done |]. exists src. done.
Qed.

Lemma nft_data_copy_refines_bytewise_witness :
  nft_data_copy BigEndian sample_dst sample_src
    = nft_data_copy_bytewise sample_dst sample_src ∧
  ∃ dst', nft_data_copy BigEndian sample_dst sample_src = Some dst' ∧
          nft_data_wf dst' ∧
          ∀ i, (i < NFT_DATA_SIZE)%nat → dst' !! i = sample_src !! i.
Proof.
  apply (nft_data_copy_refines_bytewise BigEndian sample_dst sample_src);
    reflexivity.
Defined.

(** C1: for every data value [v] and every length [len ≤ 16], copying
    [v] into a destination with [nft_data_copy] succeeds, and
    [nft_data_cmp] of the original and the copy over [len] bytes is 0,
    for any [memcmp] that meets the C library contract. *)
Theorem nft_data_copy_then_cmp_equal (memcmp : memcmp_fn) bo
        (v dst : nft_data) (len : nat) :
  memcmp_conforms memcmp →
  nft_data_wf v → nft_data_wf dst → (len ≤ 16)%nat →
  ∃ copy, nft_data_copy bo dst v = Some copy ∧
          nft_data_cmp memcmp v copy len = 0.
Proof.
  intros Hm Hv Hd Hlen. exists v. split.
  - apply nft_data_copy_is_src; assumption.
  - unfold nft_data_cmp. apply Hm; [rewrite Hv .. |]; done.
Qed.

Lemma nft_data_copy_then_cmp_equal_witness :
  ∃ copy, nft_data_copy LittleEndian sample_dst sample_src = Some copy ∧
          nft_data_cmp memcmp_generic sample_src copy 16 = 0.
Proof.
  apply (nft_data_copy_then_cmp_equal memcmp_generic LittleEndian
           sample_src sample_dst 16).
  - exact memcmp_generic_conforms.
  - reflexivity.
  - reflexivity.
  - unfold NFT_DATA_SIZE. lia.
Defined.

(** The operations on concrete values. *)
Example sample_copy_both_orders :
  nft_data_copy LittleEndian sample_dst sample_src = Some sample_src ∧
  nft_data_copy BigEndian sample_dst sample_src = Some sample_src.
Proof. split; vm_compute; reflexivity. Qed.

Example sample_cmp_differs :
  nft_data_cmp memcmp_generic sample_src sample_dst 16 = 1 ∧
  nft_data_cmp memcmp_generic sample_dst sample_src 16 = -1 ∧
  nft_data_cmp memcmp_generic sample_src sample_dst 0 = 0.
Proof. repeat split. Qed.

Example load_u64_by_order :
  load_u64 LittleEndian sample_src 8 = Some 0xff0f0e0d0c0b0a09 ∧
  load_u64 BigEndian sample_src 8 = Some 0x090a0b0c0d0e0fff ∧
  load_u64 LittleEndian sample_src 9 = None.
Proof. repeat split. Qed.

End DataValueFacts.

(** ** Registers and data types *)

Module RegistersFacts.
Import Registers.

Section RegisterMap.

Context `{nft_registers_enum}.

Lemma nft_dreg_to_type_verdict :
  nft_dreg_to_type NFT_REG_VERDICT = NFT_DATA_VERDICT.
Proof. unfold nft_dreg_to_type. rewrite Z.eqb_refl. reflexivity. Qed.

Lemma nft_dreg_to_type_value (reg : nft_registers) :
  reg ≠ NFT_REG_VERDICT → nft_dreg_to_type reg = NFT_DATA_VALUE.
Proof.
  intros Hne. unfold nft_dreg_to_type.
  destruct (Z.eqb_spec reg NFT_REG_VERDICT); [contradiction | reflexivity].
Qed.

(** C4: for every register index [reg], [nft_dreg_to_type reg] is
    [NFT_DATA_VERDICT] if and only if [reg] is [NFT_REG_VERDICT], and
    every other register is associated with [NFT_DATA_VALUE]. *)
Theorem nft_dreg_to_type_verdict_iff (reg : nft_registers) :
  (nft_dreg_to_type reg = NFT_DATA_VERDICT ↔ reg = NFT_REG_VERDICT) ∧
  (nft_dreg_to_type reg = NFT_DATA_VALUE ↔ reg ≠ NFT_REG_VERDICT).
Proof.
  unfold nft_dreg_to_type.
  destruct (Z.eqb_spec reg NFT_REG_VERDICT) as [E | E];
    repeat split; intros; congruence.
Qed.

(** C9: [nft_type_to_reg] is a right inverse of [nft_dreg_to_type] (for
    every data type [t], [nft_dreg_to_type (nft_type_to_reg t) = t]) but
    not a left inverse: every register other than the verdict register
    is sent back to [NFT_REG_1], so the round trip changes every
    non-verdict register other than [NFT_REG_1], and such a register
    value exists.  The two enumerators are distinct. *)
Theorem nft_type_to_reg_right_inverse_only :
  NFT_REG_1 ≠ NFT_REG_VERDICT →
  (∀ t, nft_dreg_to_type (nft_type_to_reg t) = t) ∧
  (∀ reg, reg ≠ NFT_REG_VERDICT →
          nft_type_to_reg (nft_dreg_to_type reg) = NFT_REG_1) ∧
  (∀ reg, reg ≠ NFT_REG_VERDICT → reg ≠ NFT_REG_1 →
          nft_type_to_reg (nft_dreg_to_type reg) ≠ reg) ∧
  (∃ reg, nft_type_to_reg (nft_dreg_to_type reg) ≠ reg).
Proof.
  intros Hdistinct.
  assert (Hval : ∀ reg, reg ≠ NFT_REG_VERDICT →
                        nft_type_to_reg (nft_dreg_to_type reg) = NFT_REG_1).
  { intros reg Hne. rewrite nft_dreg_to_type_value by done. reflexivity. }
  repeat split.
  - intros [].
    + apply nft_dreg_to_type_value. exact Hdistinct.
    + apply nft_dreg_to_type_verdict.
  - exact Hval.
  - intros reg Hv H1. rewrite Hval by done. congruence.
  - exists (Z.max NFT_REG_VERDICT NFT_REG_1 + 1).
    rewrite Hval by lia. lia.
Qed.

End RegisterMap.

Lemma nft_type_to_reg_right_inverse_only_witness :
  let _ := sample_registers in
  (∀ t, nft_dreg_to_type (nft_type_to_reg t) = t) ∧
  (∀ reg, reg ≠ NFT_REG_VERDICT →
          nft_type_to_reg (nft_dreg_to_type reg) = NFT_REG_1) ∧
  (∀ reg, reg ≠ NFT_REG_VERDICT → reg ≠ NFT_REG_1 →
          nft_type_to_reg (nft_dreg_to_type reg) ≠ reg) ∧
  (∃ reg, nft_type_to_reg (nft_dreg_to_type reg) ≠ reg).
Proof.
  apply (@nft_type_to_reg_right_inverse_only sample_registers).
  simpl. lia.
Defined.

Example sample_registers_round_trip :
  let _ := sample_registers in
  nft_type_to_reg (nft_dreg_to_type 3) = 1 ∧
  nft_dreg_to_type (nft_type_to_reg NFT_DATA_VERDICT) = NFT_DATA_VERDICT.
Proof. split; reflexivity. Qed.

End RegistersFacts.

(** ** Iterating over the expressions of a rule *)

Module RuleFacts.
Import Rule.

Lemma NFT_EXPR_SIZE_pos (m : Layout.abi) (priv_size : Z) :
  0 ≤ priv_size → 0 < NFT_EXPR_SIZE m priv_size.
Proof.
  intros H. unfold NFT_EXPR_SIZE, Layout.align_up.
  assert (0 < Layout.ptr_bytes m) by (destruct m; simpl; lia).
  assert (0 ≤ (priv_size + Layout.ptr_bytes m - 1) / Layout.ptr_bytes m)
    by (apply Z.div_pos; lia).
  nia.
Qed.

Lemma nft_expr_next_Some rule p e :
  data rule !! p = Some e →
  nft_expr_next rule p = Some (p + size (ops e))%N.
Proof. intros H. unfold nft_expr_next. rewrite H. reflexivity. Qed.

(** One turn of the loop at an offset that holds an expression. *)
Lemma for_each_from_step fuel rule p last e :
  p ≠ last → data rule !! p = Some e →
  for_each_from (S fuel) rule p last =
    visit (p, e) (for_each_from fuel rule (p + size (ops e))%N last).
Proof.
  intros Hne He. cbn [for_each_from].
  destruct (N.eqb_spec p last); [contradiction |].
  rewrite (nft_expr_next_Some rule p e He), He. reflexivity.
Qed.

Lemma for_each_from_end fuel rule last :
  for_each_from fuel rule last last = Done [].
Proof. destruct fuel; cbn [for_each_from]; rewrite N.eqb_refl; done. Qed.

Lemma visit_Done x r v :
  visit x r = Done v → ∃ v', r = Done v' ∧ v = x :: v'.
Proof. destruct r; simpl; intros [=]; eauto. Qed.

(** Walking the stored expressions: [length es] turns are enough. *)
Lemma for_each_from_stored rule last (es : list nft_expr) :
  ∀ fuel p,
    stored_at (data rule) p es →
    Forall (λ e, (0 < size (ops e))%N) es →
    (p + total (sizes_of es))%N = last →
    (length es ≤ fuel)%nat →
    for_each_from fuel rule p last = Done (zip (offsets_from p es) es).
Proof.
  induction es as [| e es IH]; intros fuel p Hst Hpos Hlast Hfuel.
  - simpl in Hlast. rewrite N.add_0_r in Hlast. subst last.
    apply for_each_from_end.
  - destruct Hst as [He Hst]. inversion_clear Hpos as [| ? ? Hpe Hpos'].
    simpl in Hlast, Hfuel.
    destruct fuel as [| fuel]; [lia |].
    rewrite (for_each_from_step fuel rule p last e) by (done || lia).
    rewrite (IH fuel (p + size (ops e))%N) by (done || lia).
    reflexivity.
Qed.

Lemma stored_at_insert_below (es : list nft_expr) :
  ∀ (d : gmap N nft_expr) off q e,
    (off < q)%N → stored_at d q es → stored_at (<[off := e]> d) q es.
Proof.
  induction es as [| e' es IH]; intros d off q e Hlt Hst; [done |].
  destruct Hst as [He' Hst]. split.
  - rewrite lookup_insert_ne by lia. exact He'.
  - apply IH; [lia | exact Hst].
Qed.

Lemma layout_stored (es : list nft_expr) :
  ∀ off, Forall (λ e, (0 < size (ops e))%N) es →
         stored_at (layout off es) off es.
Proof.
  induction es as [| e es IH]; intros off Hpos; [done |].
  inversion_clear Hpos as [| ? ? Hpe Hpos'].
  cbn [layout stored_at]. split; [apply lookup_insert_eq |].
  apply stored_at_insert_below; [lia | apply IH; exact Hpos'].
Qed.

Lemma mk_rule_stores h (es : list nft_expr) :
  Forall (λ e, (0 < size (ops e))%N) es → rule_stores (mk_rule h es) es.
Proof.
  intros Hpos. unfold rule_stores, mk_rule; simpl.
  split; [apply layout_stored; exact Hpos | done].
Qed.

(** C6: when a rule stores the expressions [es] contiguously over
    [dlen] bytes, [nft_rule_for_each_expr] reaches its end marker and
    visits exactly [es], in stored order: the first at offset 0, each
    next one [ops->size] bytes after the current one, the end marker
    being offset [dlen], which is the offset just past the last
    expression.  As many turns as there are expressions suffice. *)
Theorem nft_rule_for_each_expr_visits_stored
        (rule : nft_rule) (es : list nft_expr) (fuel : nat) :
  rule_stores rule es → (length es ≤ fuel)%nat →
  nft_rule_for_each_expr fuel rule = Done (zip (offsets_from 0 es) es) ∧
  (zip (offsets_from 0 es) es).*2 = es ∧
  nft_expr_first rule = 0%N ∧
  nft_expr_last rule = total (sizes_of es).
Proof.
  intros (Hst & Hlen & Hpos) Hfuel. repeat split.
  - unfold nft_rule_for_each_expr, nft_expr_first, nft_expr_last.
    apply for_each_from_stored; try done.
  - apply snd_zip. clear. generalize 0%N.
    induction es as [| e es IH]; intros off; simpl; [lia |].
    specialize (IH (off + size (ops e))%N). lia.
  - unfold nft_expr_last. exact Hlen.
Qed.

Lemma nft_rule_for_each_expr_visits_stored_witness :
  nft_rule_for_each_expr 3 sample_rule
    = Done (zip (offsets_from 0 sample_exprs) sample_exprs) ∧
  (zip (offsets_from 0 sample_exprs) sample_exprs).*2 = sample_exprs ∧
  nft_expr_first sample_rule = 0%N ∧
  nft_expr_last sample_rule = total (sizes_of sample_exprs).
Proof.
  apply (nft_rule_for_each_expr_visits_stored sample_rule sample_exprs 3).
  - apply mk_rule_stores. repeat constructor.
  - simpl. lia.
Defined.

(** An expression of size 0 away from the end marker holds the loop in
    place for ever. *)
Lemma for_each_from_stuck rule p last e :
  data rule !! p = Some e → size (ops e) = 0%N → p ≠ last →
  ∀ fuel v, for_each_from fuel rule p last ≠ Done v.
Proof.
  intros He Hz Hne. induction fuel as [| fuel IH]; intros v.
  - cbn [for_each_from]. destruct (N.eqb_spec p last); done.
  - rewrite (for_each_from_step fuel rule p last e Hne He).
    rewrite Hz, N.add_0_r. intros Hv.
    apply visit_Done in Hv as (v' & Hv' & _). exact (IH v' Hv').
Qed.

(** The loop on concrete rules: an exact hit, an overshoot, a stall. *)
Example sample_rule_iteration :
  nft_rule_for_each_expr 3 sample_rule
  = Done [(0%N, mk_expr "payload" 16); (16%N, mk_expr "cmp" 32);
          (48%N, mk_expr "immediate" 40)].
Proof. vm_compute. reflexivity. Qed.

Example short_rule_iteration :
  nft_rule_for_each_expr 100 short_rule = Fault 88%N.
Proof. vm_compute. reflexivity. Qed.

Example stuck_rule_iteration :
  ∀ fuel, nft_rule_for_each_expr fuel stuck_rule = OutOfFuel.
Proof.
  intros fuel. unfold nft_rule_for_each_expr, nft_expr_first, nft_expr_last.
  induction fuel as [| fuel IH]; [reflexivity |].
  rewrite (for_each_from_step fuel stuck_rule 0%N _ (mk_expr "nop" 0%N));
    [| simpl; lia | reflexivity].
  simpl size. rewrite N.add_0_r. simpl dlen in *. rewrite IH. reflexivity.
Qed.

End RuleFacts.

(** ** Chains: field widths, levels and the jump graph *)

Module ChainFacts.
Import Chain.


Lemma to_u16_small z : 0 ≤ z < 2 ^ 16 → to_u16 z = z.
Proof. intros H. unfold to_u16. apply Z.mod_small. exact H. Qed.



(** *** Walks in the jump graph *)

Lemma jump_walk_app g a b c n m :
  jump_walk g a b n → jump_walk g b c m → jump_walk g a c (n + m).
Proof.
  intros Hab Hbc. induction Hbc as [| b c d m Hbc IH Hcd].
  - rewrite Nat.add_0_r. exact Hab.
  - rewrite Nat.add_succ_r. eapply jump_walk_snoc; eauto.
Qed.

(** Going round a cycle again and again gives walks of any length. *)
Lemma jump_cycle_long g c n :
  jump_walk g c c (S n) → ∀ k, ∃ m, (k ≤ m)%nat ∧ jump_walk g c c m.
Proof.
  intros Hc. induction k as [| k (m & Hm & Hw)].
  - exists O. split; [lia | constructor].
  - exists (m + S n)%nat. split; [lia |].
    eapply jump_walk_app; eauto.
Qed.

Lemma jump_walk_last g a c n :
  jump_walk g a c (S n) → ∃ b, (b, c) ∈ g.
Proof. inversion 1; eauto. Qed.

(** *** The bounded search computes the longest path *)

Lemma max_list_bound (l : list nat) (n : nat) :
  (∀ x, x ∈ l → (x ≤ n)%nat) → (max_list l ≤ n)%nat.
Proof.
  induction l as [| x l IH]; intros H; simpl; [lia |].
  apply Nat.max_lub.
  - apply H. left.
  - apply IH. intros y Hy. apply H. right. exact Hy.
Qed.

Lemma depth_le_fuel g fuel : ∀ c, (depth g fuel c ≤ fuel)%nat.
Proof.
  induction fuel as [| fuel IH]; intros c; simpl; [lia |].
  apply max_list_bound. intros x Hx.
  apply list_elem_of_fmap in Hx as (e & -> & _).
  destruct (e.2 =? c)%nat; [| lia].
  specialize (IH e.1). lia.
Qed.

Lemma depth_ge_walk g a c n :
  jump_walk g a c n → ∀ fuel, (n `min` fuel ≤ depth g fuel c)%nat.
Proof.
  induction 1 as [| a b c n Hab IH Hbc]; intros fuel; [lia |].
  destruct fuel as [| fuel]; [lia |].
  cbn [depth].
  etransitivity; [| apply max_list_elem_of_le, list_elem_of_fmap;
                     exists (b, c); split; [reflexivity | exact Hbc]].
  simpl. rewrite Nat.eqb_refl. specialize (IH fuel). lia.
Qed.

Lemma depth_is_path g fuel : ∀ c, jump_path g c (depth g fuel c).
Proof.
  induction fuel as [| fuel IH]; intros c; cbn [depth].
  - exists c. constructor.
  - set (l := (λ e, if (e.2 =? c)%nat
                    then S (depth g fuel e.1) else O) <$> g).
    destruct (decide (l = [])) as [-> | Hne].
    { exists c. constructor. }
    pose proof (max_list_elem_of l Hne) as Hin.
    apply list_elem_of_fmap in Hin as ([a b] & Heq & Hab).
    rewrite Heq. simpl.
    destruct (Nat.eqb_spec b c) as [-> | _].
    + destruct (IH a) as (a0 & Hw). exists a0.
      eapply jump_walk_snoc; eauto.
    + exists c. constructor.
Qed.

Lemma depth_no_incoming g fuel c :
  (∀ b, (b, c) ∉ g) → depth g fuel c = O.
Proof.
  intros Hno. destruct (depth_is_path g fuel c) as (a & Hw).
  destruct (depth g fuel c) as [| n]; [done |].
  apply jump_walk_last in Hw as (b & Hb). exfalso. exact (Hno b Hb).
Qed.

(** *** The invariant of reachable tables *)

Lemma take_references_length targets :
  ∀ cs, length (foldl take_reference cs targets) = length cs.
Proof.
  induction targets as [| tg targets IH]; intros cs; simpl; [done |].
  rewrite IH. unfold take_reference. apply length_alter.
Qed.

Lemma within_capacity_spec g n c :
  within_capacity g n = true → (c < n)%nat →
  (path_level g c ≤ NFT_JUMP_STACK_SIZE)%nat.
Proof.
  unfold within_capacity. intros H Hc.
  rewrite forallb_forall in H.
  specialize (H c). apply Nat.leb_le, H, in_seq. lia.
Qed.

Lemma valid_chains_spec t (cs : list nat) c :
  forallb (valid_chain t) cs = true → c ∈ cs →
  (c < length (chains t))%nat.
Proof.
  intros H Hc. rewrite forallb_forall in H.
  apply list_elem_of_In, H in Hc. unfold valid_chain in Hc.
  apply Nat.ltb_lt in Hc. exact Hc.
Qed.

(** The jumps of the graph extended by a rule connect existing chains. *)
Lemma extended_edges_valid t src targets a b :
  table_inv t →
  forallb (valid_chain t) (src :: targets) = true →
  (a, b) ∈ jump_edges src targets ++ jumps t →
  (a < length (chains t))%nat ∧ (b < length (chains t))%nat.
Proof.
  intros [Hedges _] Hvalid Hab.
  apply elem_of_app in Hab as [Hnew | Hold]; [| exact (Hedges a b Hold)].
  unfold jump_edges in Hnew.
  apply list_elem_of_fmap in Hnew as (tg & [= -> ->] & Htg).
  split; eapply valid_chains_spec; eauto.
  - left.
  - right. exact Htg.
Qed.

Lemma add_chain_inv t h n : table_inv t → table_inv (add_chain t h n).
Proof.
  intros [Hedges Hlevels]. split; simpl.
  - intros a b Hab. rewrite length_app. simpl.
    destruct (Hedges a b Hab). lia.
  - intros c ch Hc.
    apply lookup_app_Some in Hc as [Hc | [Hlen Hc]];
      [exact (Hlevels c ch Hc) |].
    destruct (c - length (chains t))%nat as [| k] eqn:Hk; [| done].
    injection Hc as <-. simpl.
    assert (c = length (chains t)) as -> by lia.
    unfold path_level. rewrite depth_no_incoming; [split; [done | lia] |].
    intros b Hb. destruct (Hedges _ _ Hb). lia.
Qed.

Lemma insert_rule_inv t src targets :
  table_inv t → table_inv (insert_rule t src targets).2.
Proof.
  intros Hinv. unfold insert_rule.
  destruct (forallb (valid_chain t) (src :: targets)) eqn:Hvalid;
    cbn [negb]; [| exact Hinv].
  destruct (within_capacity _ _) eqn:Hcap; [| exact Hinv].
  assert (Hlen : length (relevel (jump_edges src targets ++ jumps t)
                           (foldl take_reference (chains t) targets))
                 = length (chains t)).
  { unfold relevel. rewrite length_imap. apply take_references_length. }
  split; cbn [snd chains jumps].
  - intros a b Hab. rewrite Hlen.
    eapply extended_edges_valid; eauto.
  - intros c ch Hc.
    assert (Hlt : (c < length (chains t))%nat).
    { rewrite <- Hlen. eapply lookup_lt_Some; eauto. }
    pose proof (within_capacity_spec _ _ c Hcap Hlt) as Hle.
    split; [| exact Hle].
    unfold relevel in Hc. rewrite list_lookup_imap in Hc.
    destruct (foldl take_reference (chains t) targets !! c) as [ch0 |];
      [| discriminate].
    injection Hc as <-. simpl. apply to_u16_small.
    unfold NFT_JUMP_STACK_SIZE in Hle. lia.
Qed.

Lemma reachable_inv t : reachable t → table_inv t.
Proof.
  induction 1 as [| t h n _ IH | t src targets _ IH].
  - split; [intros a b Hab; inversion Hab | intros c ch Hc; discriminate].
  - apply add_chain_inv, IH.
  - apply insert_rule_inv, IH.
Qed.

(** A jump path longer than the stack in the extended graph makes the
    insertion fail and leaves the table as it was. *)
Lemma insert_rule_rejects_long t src targets c n :
  table_inv t →
  jump_path (jump_edges src targets ++ jumps t) c n →
  (NFT_JUMP_STACK_SIZE < n)%nat →
  ∃ e, insert_rule t src targets = (Some e, t).
Proof.
  intros Hinv (a & Hw) Hn. unfold insert_rule.
  destruct (forallb (valid_chain t) (src :: targets)) eqn:Hvalid;
    cbn [negb]; [| eauto].
  destruct (within_capacity _ _) eqn:Hcap; [| eauto].
  exfalso.
  destruct n as [| n]; [lia |].
  destruct (jump_walk_last _ _ _ _ Hw) as (b & Hb).
  destruct (extended_edges_valid t src targets b c Hinv Hvalid Hb) as [_ Hc].
  pose proof (within_capacity_spec _ _ c Hcap Hc) as Hle.
  pose proof (depth_ge_walk _ _ _ _ Hw (S NFT_JUMP_STACK_SIZE)) as Hge.
  unfold path_level in Hle. lia.
Qed.

(** C5: in every reachable table each chain's [level] is at most
    [NFT_JUMP_STACK_SIZE] (16) and is the length of the longest jump
    path reaching the chain, and the jump graph has no cycle.  A rule
    whose jumps would close a cycle, or make some jump path longer than
    the jump stack, is refused at insertion and the table is left as it
    was; whatever the outcome of an insertion, the resulting table is
    again reachable, so the bound keeps holding. *)
Theorem chain_level_within_jump_stack (t : table) :
  reachable t →
  (∀ c ch, chains t !! c = Some ch →
     0 ≤ level ch ≤ Z.of_nat NFT_JUMP_STACK_SIZE ∧
     jump_path (jumps t) c (Z.to_nat (level ch)) ∧
     (∀ n, jump_path (jumps t) c n → Z.of_nat n ≤ level ch)) ∧
  ¬ jump_cycle (jumps t) ∧
  (∀ src targets,
     (jump_cycle (jump_edges src targets ++ jumps t) ∨
      ∃ c n, jump_path (jump_edges src targets ++ jumps t) c n ∧
             (NFT_JUMP_STACK_SIZE < n)%nat) →
     ∃ e, insert_rule t src targets = (Some e, t)) ∧
  (∀ src targets c ch,
     chains (insert_rule t src targets).2 !! c = Some ch →
     0 ≤ level ch ≤ Z.of_nat NFT_JUMP_STACK_SIZE).
Proof.
  intros Hreach. pose proof (reachable_inv t Hreach) as Hinv.
  assert (Hbound : ∀ t', table_inv t' → ∀ c ch, chains t' !! c = Some ch →
            0 ≤ level ch ≤ Z.of_nat NFT_JUMP_STACK_SIZE ∧
            jump_path (jumps t') c (Z.to_nat (level ch)) ∧
            (∀ n, jump_path (jumps t') c n → Z.of_nat n ≤ level ch)).
  { intros t' [_ Hlevels] c ch Hc.
    destruct (Hlevels c ch Hc) as [-> Hle].
    split; [lia |]. split.
    - rewrite Nat2Z.id. apply depth_is_path.
    - intros n (a & Hw).
      pose proof (depth_ge_walk _ _ _ _ Hw (S NFT_JUMP_STACK_SIZE)).
      unfold path_level in *. lia. }
  split; [exact (Hbound t Hinv) |].
  split; [| split].
  - intros (c & n & Hc).
    destruct (jump_cycle_long _ _ _ Hc (S NFT_JUMP_STACK_SIZE))
      as (m & Hm & Hw).
    destruct (jump_walk_last _ _ _ _ Hc) as (b & Hb).
    destruct Hinv as [Hedges Hlevels].
    destruct (Hedges _ _ Hb) as [_ Hlt].
    destruct (lookup_lt_is_Some_2 _ _ Hlt) as [ch Hch].
    destruct (Hlevels c ch Hch) as [_ Hle].
    pose proof (depth_ge_walk _ _ _ _ Hw (S NFT_JUMP_STACK_SIZE)).
    unfold path_level in Hle. lia.
  - intros src targets [(c & n & Hc) | (c & n & Hp & Hn)].
    + destruct (jump_cycle_long _ _ _ Hc (S NFT_JUMP_STACK_SIZE))
        as (m & Hm & Hw).
      apply (insert_rule_rejects_long t src targets c m Hinv);
        [exists c; exact Hw | lia].
    + exact (insert_rule_rejects_long t src targets c n Hinv Hp Hn).
  - intros src targets c ch Hc.
    apply (Hbound _ (insert_rule_inv t src targets Hinv) c ch Hc).
Qed.

Lemma chain_level_within_jump_stack_witness :
  (∀ c ch, chains sample_table !! c = Some ch →
     0 ≤ level ch ≤ Z.of_nat NFT_JUMP_STACK_SIZE ∧
     jump_path (jumps sample_table) c (Z.to_nat (level ch)) ∧
     (∀ n, jump_path (jumps sample_table) c n → Z.of_nat n ≤ level ch)) ∧
  ¬ jump_cycle (jumps sample_table) ∧
  (∀ src targets,
     (jump_cycle (jump_edges src targets ++ jumps sample_table) ∨
      ∃ c n, jump_path (jump_edges src targets ++ jumps sample_table) c n ∧
             (NFT_JUMP_STACK_SIZE < n)%nat) →
     ∃ e, insert_rule sample_table src targets = (Some e, sample_table)) ∧
  (∀ src targets c ch,
     chains (insert_rule sample_table src targets).2 !! c = Some ch →
     0 ≤ level ch ≤ Z.of_nat NFT_JUMP_STACK_SIZE).
Proof.
  apply (chain_level_within_jump_stack sample_table).
  unfold sample_table. repeat constructor.
Defined.

(** The model at work: levels along a chain of jumps, a refused cycle,
    a refused seventeenth jump. *)
Example sample_table_levels :
  level <$> chains sample_table = [0; 1; 2] ∧
  use <$> chains sample_table = [0; 1; 1].
Proof. vm_compute. done. Qed.

Example sample_table_refuses_cycle :
  insert_rule sample_table 2 [0%nat]
  = (Some CycleOrDepthExceeded, sample_table).
Proof. vm_compute. reflexivity. Qed.

Example full_depth_table_levels :
  level <$> chains full_depth_table
  = [0; 1; 2; 3; 4; 5; 6; 7; 8; 9; 10; 11; 12; 13; 14; 15; 16; 0].
Proof. vm_compute. reflexivity. Qed.

Example full_depth_table_refuses_deeper :
  insert_rule full_depth_table 16 [17%nat]
  = (Some CycleOrDepthExceeded, full_depth_table).
Proof. vm_compute. reflexivity. Qed.

End ChainFacts.

(** ** Sets: the list-backed implementation *)

Module SetOpsFacts.
Import DataValue SetOps.

Lemma memcmp_generic_refl (a : list byte) : ∀ n, memcmp_generic a a n = 0.
Proof.
  induction a as [| c a IH]; intros [| n]; simpl; try reflexivity.
  rewrite Z.sub_diag. simpl. apply IH.
Qed.

Lemma same_key_refl klen k : same_key klen k k = true.
Proof.
  unfold same_key, nft_data_cmp. rewrite memcmp_generic_refl. reflexivity.
Qed.

Lemma find_elem_unlink klen k (elems : list nft_set_elem) :
  find_elem klen (unlink klen elems k) k = None.
Proof.
  induction elems as [| e elems IH]; simpl; [reflexivity |].
  destruct (same_key klen (key e) k) eqn:He; [exact IH |].
  simpl. rewrite He. exact IH.
Qed.

(** An element that [find_elem] returns is stored under the key asked
    for. *)
Lemma find_elem_same_key klen k (elems : list nft_set_elem) e :
  find_elem klen elems k = Some e →
  e ∈ elems ∧ same_key klen (key e) k = true.
Proof.
  induction elems as [| e' elems IH]; simpl; [discriminate |].
  destruct (same_key klen (key e') k) eqn:He.
  - intros [= <-]. split; [left | exact He].
  - intros H. destruct (IH H). split; [right |]; assumption.
Qed.

(** C7: for the list-backed set, whatever its content: when [insert]
    of an element with key [k] and data [d] succeeds, [lookup] of [k]
    in the resulting set answers present with data [d]; after [remove]
    of that element, [lookup] of [k] answers absent and leaves the
    caller's data untouched; when [k] is already present, [insert]
    answers [Exists] and returns the very same set, in which [lookup]
    of [k] answers as before.  [insert] succeeds exactly when the key
    is absent. *)
Theorem set_insert_lookup_remove
        (s : nft_set (list nft_set_elem)) (elem : nft_set_elem)
        (out : nft_data) :
  (∀ s', insert s elem = (None, s') →
         lookup s' (key elem) out = (true, data elem) ∧
         lookup (remove s' elem) (key elem) out = (false, out)) ∧
  (∀ d0, lookup s (key elem) out = (true, d0) →
         insert s elem = (Some Errors.Exists, s) ∧
         lookup (insert s elem).2 (key elem) out = (true, d0)) ∧
  ((lookup s (key elem) out).1 = false ↔
   ∃ s', insert s elem = (None, s')).
Proof.
  cbn [lookup insert remove list_set_ops].
  destruct (find_elem (klen s) (priv s) (key elem)) as [e |] eqn:Hfind.
  - split; [intros s' [=] |]. split.
    + intros d0 [= <-]. cbn [snd]. rewrite Hfind. done.
    + cbn [fst]. split; [discriminate | intros (s' & [=])].
  - split; [| split].
    + intros s' [= <-]. cbn [with_priv klen priv find_elem].
      rewrite same_key_refl. split; [reflexivity |].
      cbn [unlink]. rewrite same_key_refl, find_elem_unlink. reflexivity.
    + intros d0 [=].
    + cbn [fst]. split; [eauto | done].
Qed.

(** The operations on a concrete set. *)
Example sample_set_round_trip :
  let s1 := (insert sample_set sample_elem).2 in
  (insert sample_set sample_elem).1 = None ∧
  lookup s1 sample_src sample_dst = (true, sample_dst) ∧
  (insert s1 sample_elem).1 = Some Errors.Exists ∧
  (insert s1 sample_elem).2 = s1 ∧
  lookup (remove s1 sample_elem) sample_src sample_src = (false, sample_src).
Proof. vm_compute. done. Qed.

End SetOpsFacts.

(** ** More on copying and comparing data values *)

Module DataValueMoreFacts.
Import DataValue DataValueMore DataValueFacts.

Lemma store_u64_length bo (m m' : list byte) off v :
  store_u64 bo m off v = Some m' → length m' = length m.
Proof.
  unfold store_u64. destruct (Nat.leb_spec (off + 8) (length m)); [| done].
  intros [= <-].
  rewrite !length_app, in_order_length, length_le_split,
    length_take, length_drop.
  lia.
Qed.

Lemma store_u64_None bo (m : list byte) off v :
  (length m < off + 8)%nat → store_u64 bo m off v = None.
Proof.
  intros H. unfold store_u64.
  destruct (Nat.leb_spec (off + 8) (length m)); [lia | done].
Qed.

(** X1: [nft_data_copy] reads the first 16 bytes of the source region and
    overwrites the first 16 bytes of the destination region with them,
    for either byte order; what follows the value in the destination is
    left as it was.  An access leaves a region exactly when the region
    has fewer than 16 bytes. *)
Theorem nft_data_copy_exactly_16_bytes bo (dst src : list byte) :
  nft_data_copy bo dst src =
    if decide (16 ≤ length src ∧ 16 ≤ length dst)%nat
    then Some (take 16 src ++ drop 16 dst)
    else None.
Proof.
  unfold nft_data_copy.
  change (data_offset 0) with 0%nat. change (data_offset 2) with 8%nat.
  destruct (decide (8 ≤ length src)%nat) as [Hs8 | Hs8].
  2: { rewrite (load_u64_None bo src 0) by lia. cbn [mbind option_bind].
       rewrite decide_False by lia. reflexivity. }
  pose proof (load_u64_Some bo src 0 ltac:(lia)) as Hlo.
  rewrite Hlo. cbn [mbind option_bind].
  destruct (decide (8 ≤ length dst)%nat) as [Hd8 | Hd8].
  2: { rewrite (store_u64_None bo dst 0) by lia. cbn [mbind option_bind].
       rewrite decide_False by lia. reflexivity. }
  rewrite (store_loaded_u64 bo dst src 0 _ Hlo) by lia.
  cbn [mbind option_bind].
  destruct (decide (16 ≤ length src)%nat) as [Hs | Hs].
  2: { rewrite (load_u64_None bo src 8) by lia. cbn [mbind option_bind].
       rewrite decide_False by lia. reflexivity. }
  pose proof (load_u64_Some bo src 8 ltac:(lia)) as Hhi.
  rewrite Hhi. cbn [mbind option_bind].
  set (dst1 := take 0 dst ++ take 8 (drop 0 src) ++ drop (0 + 8) dst).
  assert (Hlen1 : length dst1 = length dst).
  { unfold dst1. rewrite !length_app, !length_take, !length_drop. lia. }
  destruct (decide (16 ≤ length dst)%nat) as [Hd | Hd].
  2: { rewrite (store_u64_None bo dst1 8) by lia.
       rewrite decide_False by lia. reflexivity. }
  rewrite (store_loaded_u64 bo dst1 src 8 _ Hhi) by lia.
  rewrite decide_True by lia. f_equal.
  unfold dst1. rewrite take_0, drop_0, app_nil_l, Nat.add_0_l.
  rewrite take_app_length' by (rewrite length_take; lia).
  rewrite drop_app_ge by (rewrite length_take; lia).
  rewrite length_take, drop_drop.
  replace (8 + (8 + 8 - 8 `min` length src))%nat with 16%nat by lia.
  rewrite app_assoc, take_take_drop. reflexivity.
Qed.

Example sample_region_copy :
  nft_data_copy BigEndian sample_region sample_src
  = Some (sample_src ++ map byte.of_Z [170; 187; 204; 221]) ∧
  nft_data_copy BigEndian (take 15 sample_dst) sample_src = None.
Proof. split; vm_compute; reflexivity. Qed.

(** What [nft_data_cmp] finding no difference means, for a [memcmp]
    that meets the C library contract: the values agree on each of the
    first [len] bytes. *)
Lemma nft_data_cmp_zero_iff (memcmp : memcmp_fn) (d1 d2 : list byte) len :
  memcmp_conforms memcmp →
  (len ≤ length d1)%nat → (len ≤ length d2)%nat →
  (nft_data_cmp memcmp d1 d2 len = 0 ↔
   ∀ i, (i < len)%nat → d1 !! i = d2 !! i).
Proof.
  intros Hm H1 H2. unfold nft_data_cmp. rewrite (Hm d1 d2 len H1 H2).
  split.
  - intros Heq i Hi.
    rewrite <- (lookup_take_lt d1 len i Hi), <- (lookup_take_lt d2 len i Hi).
    rewrite Heq. reflexivity.
  - intros Hall. apply list_eq. intros i.
    destruct (decide (i < len)%nat) as [Hi | Hi].
    + rewrite !lookup_take_lt by done. apply Hall, Hi.
    + rewrite !lookup_take_ge by lia. reflexivity.
Qed.

(** X2: Comparison over a key length looks at no byte past it: values that
    compare equal over [len] bytes compare equal over any shorter
    length, the comparison is symmetric and transitive in its verdict
    of equality, over 0 bytes any two values are equal, and over all 16
    bytes only identical values are. *)
Theorem nft_data_cmp_equality (memcmp : memcmp_fn) (d1 d2 d3 : nft_data)
        (len len' : nat) :
  memcmp_conforms memcmp →
  nft_data_wf d1 → nft_data_wf d2 → nft_data_wf d3 →
  (len' ≤ len)%nat → (len ≤ 16)%nat →
  (nft_data_cmp memcmp d1 d2 len = 0 ↔
   ∀ i, (i < len)%nat → d1 !! i = d2 !! i) ∧
  (nft_data_cmp memcmp d1 d2 len = 0 →
   nft_data_cmp memcmp d1 d2 len' = 0) ∧
  (nft_data_cmp memcmp d1 d2 len = 0 →
   nft_data_cmp memcmp d2 d1 len = 0) ∧
  (nft_data_cmp memcmp d1 d2 len = 0 →
   nft_data_cmp memcmp d2 d3 len = 0 →
   nft_data_cmp memcmp d1 d3 len = 0) ∧
  nft_data_cmp memcmp d1 d2 0 = 0 ∧
  (nft_data_cmp memcmp d1 d2 16 = 0 ↔ d1 = d2).
Proof.
  unfold nft_data_wf, NFT_DATA_SIZE. intros Hm H1 H2 H3 Hle Hlen.
  pose proof (λ a b n Ha Hb, nft_data_cmp_zero_iff memcmp a b n Hm Ha Hb)
    as Hiff.
  split; [apply Hiff; lia |].
  split; [| split; [| split; [| split]]].
  - rewrite !Hiff by lia. intros H i Hi. apply H. lia.
  - rewrite !Hiff by lia. intros H i Hi. symmetry. apply H, Hi.
  - rewrite !Hiff by lia. intros Ha Hb i Hi.
    rewrite (Ha i Hi). apply Hb, Hi.
  - apply Hiff; [lia | lia |]. intros i Hi. lia.
  - rewrite Hiff by lia. split.
    + intros H. apply list_eq. intros i.
      destruct (decide (i < 16)%nat) as [Hi | Hi]; [apply H, Hi |].
      rewrite !lookup_ge_None_2 by lia. reflexivity.
    + intros -> i _. reflexivity.
Qed.

Lemma nft_data_cmp_equality_witness :
  (nft_data_cmp memcmp_generic sample_src sample_src 4 = 0 ↔
   ∀ i, (i < 4)%nat → sample_src !! i = sample_src !! i) ∧
  (nft_data_cmp memcmp_generic sample_src sample_src 4 = 0 →
   nft_data_cmp memcmp_generic sample_src sample_src 2 = 0) ∧
  (nft_data_cmp memcmp_generic sample_src sample_src 4 = 0 →
   nft_data_cmp memcmp_generic sample_src sample_src 4 = 0) ∧
  (nft_data_cmp memcmp_generic sample_src sample_src 4 = 0 →
   nft_data_cmp memcmp_generic sample_src sample_dst 4 = 0 →
   nft_data_cmp memcmp_generic sample_src sample_dst 4 = 0) ∧
  nft_data_cmp memcmp_generic sample_src sample_src 0 = 0 ∧
  (nft_data_cmp memcmp_generic sample_src sample_src 16 = 0 ↔
   sample_src = sample_src).
Proof.
  apply (nft_data_cmp_equality memcmp_generic
           sample_src sample_src sample_dst 4 2).
  - exact memcmp_generic_conforms.
  - reflexivity.
  - reflexivity.
  - reflexivity.
  - lia.
  - lia.
Defined.

End DataValueMoreFacts.

(** ** More on the iteration over a rule *)

Module RuleShapeFacts.
Import Rule RuleShape RuleFacts.

(** A run that reaches the end marker consumed one turn per visit. *)
Lemma for_each_from_Done_turns rule last :
  ∀ fuel p v, for_each_from fuel rule p last = Done v →
              (length v ≤ fuel)%nat.
Proof.
  induction fuel as [| fuel IH]; intros p v Hv.
  - cbn [for_each_from] in Hv.
    destruct (N.eqb_spec p last); [| discriminate].
    injection Hv as <-. done.
  - destruct (N.eq_dec p last) as [-> | Hne].
    { rewrite for_each_from_end in Hv. injection Hv as <-. simpl. lia. }
    destruct (data rule !! p) as [e |] eqn:He.
    2: { cbn [for_each_from] in Hv. rewrite He in Hv.
         destruct (N.eqb_spec p last); done. }
    rewrite (for_each_from_step fuel rule p last e Hne He) in Hv.
    apply visit_Done in Hv as (v' & Hv' & ->).
    specialize (IH _ _ Hv'). simpl. lia.
Qed.

(** What a run that reaches the end marker went through: the visited
    expressions are stored one after the other from the starting
    offset, each is at least one byte long, and they end at the
    marker. *)
Lemma for_each_from_Done_stored rule last :
  ∀ fuel p v,
    for_each_from fuel rule p last = Done v →
    stored_at (data rule) p v.*2 ∧
    v.*1 = offsets_from p v.*2 ∧
    Forall (λ e, (0 < size (ops e))%N) v.*2 ∧
    (p + total (sizes_of v.*2))%N = last.
Proof.
  induction fuel as [| fuel IH]; intros p v Hv.
  - cbn [for_each_from] in Hv.
    destruct (N.eqb_spec p last) as [-> |]; [| discriminate].
    injection Hv as <-. simpl. repeat split; [constructor | lia].
  - destruct (N.eq_dec p last) as [-> | Hne].
    { rewrite for_each_from_end in Hv. injection Hv as <-.
      simpl. repeat split; [constructor | lia]. }
    destruct (data rule !! p) as [e |] eqn:He.
    2: { cbn [for_each_from] in Hv. rewrite He in Hv.
         destruct (N.eqb_spec p last); done. }
    rewrite (for_each_from_step fuel rule p last e Hne He) in Hv.
    apply visit_Done in Hv as (v' & Hv' & ->).
    destruct (N.eq_dec (size (ops e)) 0%N) as [Hz | Hnz].
    { rewrite Hz, N.add_0_r in Hv'.
      exfalso. exact (for_each_from_stuck rule p last e He Hz Hne _ _ Hv'). }
    destruct (IH _ _ Hv') as (Hst & Hoff & Hpos & Hl).
    cbn [fmap list_fmap fst snd stored_at offsets_from].
    split; [split; [exact He | exact Hst] |].
    split; [f_equal; exact Hoff |].
    split; [constructor; [lia | exact Hpos] |].
    unfold total, sizes_of in *. simpl. lia.
Qed.

(** Every expression stored from [p] up to [last] lies between the
    two. *)
Lemma stored_within (es : list nft_expr) :
  ∀ p, Forall (λ x, (p ≤ x.1 ∧ x.1 + size (ops x.2) ≤
                       p + total (sizes_of es))%N)
              (zip (offsets_from p es) es).
Proof.
  induction es as [| e es IH]; intros p; [constructor |].
  cbn [offsets_from zip zip_with]. constructor.
  - unfold total, sizes_of. simpl. lia.
  - eapply Forall_impl; [apply IH |].
    intros [off e'] [Hlo Hhi]. unfold total, sizes_of in *.
    simpl in *. lia.
Qed.

Lemma zip_fst_snd_eq {A B} (v : list (A * B)) : zip v.*1 v.*2 = v.
Proof. induction v as [| [a b] v IH]; simpl; [done | by f_equal]. Qed.

(** Expressions stored one after the other do not overlap: one that
    comes earlier ends where a later one starts, or before. *)
Lemma stored_in_order (es : list nft_expr) :
  ∀ p i j (x y : N * nft_expr),
    zip (offsets_from p es) es !! i = Some x →
    zip (offsets_from p es) es !! j = Some y →
    (i < j)%nat →
    (x.1 + size (ops x.2) ≤ y.1)%N.
Proof.
  induction es as [| e es IH]; intros p i j x y Hx Hy Hij; [done |].
  cbn [offsets_from zip zip_with] in Hx, Hy.
  destruct j as [| j]; [lia |]. cbn [lookup list_lookup] in Hy.
  destruct i as [| i].
  - injection Hx as <-. simpl.
    pose proof (stored_within es (p + size (ops e))%N) as Hall.
    rewrite Forall_forall in Hall.
    apply list_elem_of_lookup_2, Hall in Hy. lia.
  - cbn [lookup list_lookup] in Hx. eapply IH; eauto. lia.
Qed.

Lemma total_ge_length (es : list nft_expr) :
  Forall (λ e, (0 < size (ops e))%N) es →
  (N.of_nat (length es) ≤ total (sizes_of es))%N.
Proof.
  induction 1 as [| e es He _ IH]; [done |].
  unfold total, sizes_of in *. simpl length. simpl. lia.
Qed.

(** X5: A rule with no expression data: the iteration exits at once,
    visiting nothing, whatever the turns granted and whatever lies in
    [data]; and it exits without a visit only then. *)
Theorem nft_rule_for_each_expr_empty (rule : nft_rule) (fuel : nat) :
  nft_rule_for_each_expr fuel rule = Done [] ↔ dlen rule = 0%N.
Proof.
  unfold nft_rule_for_each_expr, nft_expr_first, nft_expr_last. split.
  - intros Hv.
    destruct (for_each_from_Done_stored _ _ _ _ _ Hv) as (_ & _ & _ & Hl).
    simpl in Hl. lia.
  - intros ->. apply for_each_from_end.
Qed.

(** *** [NFT_EXPR_SIZE] *)

Lemma align_up_bounds (n a : Z) :
  0 < a → n ≤ Layout.align_up n a < n + a ∧ (a | Layout.align_up n a).
Proof.
  intros Ha. unfold Layout.align_up. split.
  - pose proof (Z.div_mod (n + a - 1) a ltac:(lia)) as Hdm.
    pose proof (Z.mod_pos_bound (n + a - 1) a Ha). nia.
  - exists ((n + a - 1) / a). reflexivity.
Qed.

Lemma align_up_of_multiple (n a : Z) :
  0 < a → (a | n) → Layout.align_up n a = n.
Proof.
  intros Ha [k ->]. unfold Layout.align_up.
  replace (k * a + a - 1) with (a - 1 + k * a) by lia.
  rewrite Z.div_add by lia. rewrite Z.div_small by lia. lia.
Qed.

Lemma ptr_bytes_pos (m : Layout.abi) : 0 < Layout.ptr_bytes m.
Proof. destruct m; simpl; lia. Qed.

(** Sizes that are multiples of the alignment keep every offset a
    multiple of it. *)
Lemma offsets_aligned (m : Layout.abi) (es : list nft_expr) :
  ∀ p, (Layout.ptr_bytes m | Z.of_N p) →
       Forall (sized_by_macro m) es →
       Forall (λ off, (Layout.ptr_bytes m | Z.of_N off)) (offsets_from p es) ∧
       (Layout.ptr_bytes m | Z.of_N (p + total (sizes_of es))).
Proof.
  induction es as [| e es IH]; intros p Hp Hes.
  - simpl. rewrite N.add_0_r. split; [constructor | exact Hp].
  - inversion_clear Hes as [| ? ? (priv & Hpriv & He) Hes'].
    assert (Hnext : (Layout.ptr_bytes m | Z.of_N (p + size (ops e)))).
    { rewrite N2Z.inj_add, He. apply Z.divide_add_r; [exact Hp |].
      unfold NFT_EXPR_SIZE. apply Z.divide_add_r; [apply Z.divide_refl |].
      apply align_up_bounds, ptr_bytes_pos. }
    destruct (IH _ Hnext Hes') as [Hoffs Hend].
    cbn [offsets_from]. split; [constructor; [exact Hp | exact Hoffs] |].
    unfold total, sizes_of in *. simpl.
    rewrite N.add_assoc. exact Hend.
Qed.

(** X7: When every expression of a rule is sized by [NFT_EXPR_SIZE], the
    iteration reaches the end marker having visited the stored
    expressions, each expression starts at an offset that is a multiple
    of the alignment of [struct nft_expr], and so does the end marker:
    the pointers the iteration hands out are aligned as [data] is. *)
Theorem nft_rule_for_each_expr_aligned
        (m : Layout.abi) (rule : nft_rule) (es : list nft_expr) (fuel : nat) :
  rule_stores rule es → Forall (sized_by_macro m) es →
  (length es ≤ fuel)%nat →
  ∃ v, nft_rule_for_each_expr fuel rule = Done v ∧ v.*2 = es ∧
       Forall (λ x, (Layout.alignof m nft_expr_t | Z.of_N x.1)) v ∧
       (Layout.alignof m nft_expr_t | Z.of_N (nft_expr_last rule)).
Proof.
  intros (Hst & Hlen & Hpos) Hmacro Hfuel.
  assert (Hal : Layout.alignof m nft_expr_t = Layout.ptr_bytes m)
    by (destruct m; reflexivity).
  rewrite Hal.
  destruct (offsets_aligned m es 0%N (Z.divide_0_r _) Hmacro) as [Hoffs Hend].
  assert (Hsame : length (offsets_from 0 es) = length es).
  { clear. generalize 0%N. induction es as [| e es IH]; intros p; simpl;
      [done | by rewrite IH]. }
  exists (zip (offsets_from 0 es) es). split; [| split; [| split]].
  - unfold nft_rule_for_each_expr, nft_expr_first, nft_expr_last.
    apply for_each_from_stored; try done.
  - apply snd_zip. lia.
  - rewrite Forall_forall. intros [off e] Hin. simpl.
    rewrite Forall_forall in Hoffs. apply Hoffs.
    apply (list_elem_of_fmap_2 fst) in Hin. rewrite fst_zip in Hin by lia.
    exact Hin.
  - unfold nft_expr_last. rewrite Hlen. rewrite N.add_0_l in Hend.
    exact Hend.
Qed.

Lemma nft_rule_for_each_expr_aligned_witness :
  ∃ v, nft_rule_for_each_expr 3 macro_sized_rule = Done v ∧
       v.*2 = macro_sized_exprs ∧
       Forall (λ x, (Layout.alignof Layout.LP64 nft_expr_t | Z.of_N x.1)) v ∧
       (Layout.alignof Layout.LP64 nft_expr_t
        | Z.of_N (nft_expr_last macro_sized_rule)).
Proof.
  apply (nft_rule_for_each_expr_aligned Layout.LP64 macro_sized_rule
           macro_sized_exprs 3).
  - apply mk_rule_stores. repeat constructor.
  - repeat constructor.
    + exists 5. split; [lia | reflexivity].
    + exists 8. split; [lia | reflexivity].
    + exists 0. split; [lia | reflexivity].
  - simpl. lia.
Defined.

(** *** Successors and private data of stored expressions *)

Lemma stored_successor (d : gmap N nft_expr) (es : list nft_expr) :
  ∀ p i off e,
    stored_at d p es →
    zip (offsets_from p es) es !! i = Some (off, e) →
    d !! off = Some e ∧
    (offsets_from p es !! S i = Some (off + size (ops e))%N ∨
     offsets_from p es !! S i = None ∧
     (off + size (ops e) = p + total (sizes_of es))%N).
Proof.
  induction es as [| e0 es IH]; intros p i off e Hst Hi; [done |].
  destruct Hst as [He0 Hst]. cbn [offsets_from zip zip_with] in Hi.
  destruct i as [| i].
  - injection Hi as <- <-. split; [exact He0 |].
    destruct es as [| e1 es]; [right | left; reflexivity].
    split; [reflexivity |]. unfold total, sizes_of. simpl. lia.
  - cbn [lookup list_lookup] in Hi.
    destruct (IH _ _ _ _ Hst Hi) as [He [Hnext | [Hnone Hend]]].
    + split; [exact He |]. left. exact Hnext.
    + split; [exact He |]. right. split; [exact Hnone |].
      unfold total, sizes_of in *. simpl. lia.
Qed.

(** X8: In a rule that stores the expressions [es], [nft_expr_next] of each
    expression is the offset of the one stored after it, and
    [nft_expr_next] of the last one is [nft_expr_last]; and the rule
    stores no other list of expressions: its data and [dlen] determine
    [es]. *)
Theorem nft_expr_next_stored (rule : nft_rule) (es : list nft_expr) :
  rule_stores rule es →
  (∀ i off e,
     zip (offsets_from 0 es) es !! i = Some (off, e) →
     nft_expr_next rule off
     = Some (default (nft_expr_last rule) (offsets_from 0 es !! S i))) ∧
  (∀ es', rule_stores rule es' → es' = es).
Proof.
  intros (Hst & Hlen & Hpos). split.
  - intros i off e Hi.
    destruct (stored_successor _ _ _ _ _ _ Hst Hi) as [He Hnext].
    rewrite (nft_expr_next_Some rule off e He). f_equal.
    destruct Hnext as [-> | [-> Hend]]; [reflexivity |].
    simpl. unfold nft_expr_last. rewrite Hlen. lia.
  - intros es' (Hst' & Hlen' & Hpos').
    pose proof (for_each_from_stored rule (dlen rule) es
                  (length es + length es') 0%N Hst Hpos
                  ltac:(lia) ltac:(lia)) as H1.
    pose proof (for_each_from_stored rule (dlen rule) es'
                  (length es + length es') 0%N Hst' Hpos'
                  ltac:(lia) ltac:(lia)) as H2.
    rewrite H1 in H2. injection H2 as H2.
    assert (Hsame : ∀ l p, length (offsets_from p l) = length l).
    { clear. induction l as [| e l IH]; intros p; simpl;
        [done | by rewrite IH]. }
    apply (f_equal (fmap snd)) in H2.
    rewrite !snd_zip in H2 by (rewrite Hsame; lia).
    symmetry. exact H2.
Qed.

Lemma nft_expr_next_stored_witness :
  (∀ i off e,
     zip (offsets_from 0 sample_exprs) sample_exprs !! i = Some (off, e) →
     nft_expr_next sample_rule off
     = Some (default (nft_expr_last sample_rule)
               (offsets_from 0 sample_exprs !! S i))) ∧
  (∀ es', rule_stores sample_rule es' → es' = sample_exprs).
Proof.
  apply (nft_expr_next_stored sample_rule sample_exprs).
  apply mk_rule_stores. repeat constructor.
Defined.



End RuleShapeFacts.

(** ** More on registers and data types *)

Module RegistersMoreFacts.
Import Registers RegistersFacts.

(** X10: The two conversions invert each other on data types exactly when
    the enumerators [NFT_REG_1] and [NFT_REG_VERDICT] differ, which is
    also exactly when [nft_type_to_reg] tells the two data types apart.
    Whatever the enumerators, the verdict type survives the round trip,
    and sending a register to its type and back is idempotent: the
    result is the register that stands for the type. *)
Theorem nft_type_to_reg_round_trips `{nft_registers_enum} :
  ((∀ t, nft_dreg_to_type (nft_type_to_reg t) = t) ↔
   NFT_REG_1 ≠ NFT_REG_VERDICT) ∧
  ((∀ t1 t2, nft_type_to_reg t1 = nft_type_to_reg t2 → t1 = t2) ↔
   NFT_REG_1 ≠ NFT_REG_VERDICT) ∧
  nft_dreg_to_type (nft_type_to_reg NFT_DATA_VERDICT) = NFT_DATA_VERDICT ∧
  (∀ reg, nft_type_to_reg
            (nft_dreg_to_type (nft_type_to_reg (nft_dreg_to_type reg)))
          = nft_type_to_reg (nft_dreg_to_type reg)).
Proof.
  split; [| split; [| split]].
  - split.
    + intros Hinv Heq. specialize (Hinv NFT_DATA_VALUE).
      unfold nft_type_to_reg in Hinv. simpl in Hinv.
      rewrite Heq, nft_dreg_to_type_verdict in Hinv. discriminate.
    + intros Hne [].
      * apply nft_dreg_to_type_value. exact Hne.
      * apply nft_dreg_to_type_verdict.
  - split.
    + intros Hinj Heq.
      specialize (Hinj NFT_DATA_VALUE NFT_DATA_VERDICT Heq). discriminate.
    + intros Hne [] []; unfold nft_type_to_reg; simpl; congruence.
  - apply nft_dreg_to_type_verdict.
  - intros reg. unfold nft_dreg_to_type, nft_type_to_reg.
    destruct (Z.eqb_spec reg NFT_REG_VERDICT) as [_ | _]; simpl.
    + rewrite Z.eqb_refl. reflexivity.
    + destruct (Z.eqb_spec NFT_REG_1 NFT_REG_VERDICT) as [E | _]; simpl;
        congruence.
Qed.

End RegistersMoreFacts.

(** ** Module aliases *)

Module ModuleAliasFacts.
Import ModuleAlias.

Local Open Scope string_scope.

(** X11: The four kinds of alias never coincide: whatever the family and the
    names, an address-family alias, a table alias, an expression alias
    and the set alias are four different strings. *)
Theorem module_alias_kinds_disjoint (f f' n n' : string) :
  MODULE_ALIAS_NFT_FAMILY f ≠ MODULE_ALIAS_NFT_TABLE f' n ∧
  MODULE_ALIAS_NFT_FAMILY f ≠ MODULE_ALIAS_NFT_EXPR n ∧
  MODULE_ALIAS_NFT_FAMILY f ≠ MODULE_ALIAS_NFT_SET ∧
  MODULE_ALIAS_NFT_TABLE f n ≠ MODULE_ALIAS_NFT_EXPR n' ∧
  MODULE_ALIAS_NFT_TABLE f n ≠ MODULE_ALIAS_NFT_SET ∧
  MODULE_ALIAS_NFT_EXPR n ≠ MODULE_ALIAS_NFT_SET.
Proof.
  unfold MODULE_ALIAS_NFT_FAMILY, MODULE_ALIAS_NFT_TABLE,
    MODULE_ALIAS_NFT_EXPR, MODULE_ALIAS_NFT_SET.
  repeat split; simpl; discriminate.
Qed.

Lemma append_dash_inj (f1 : string) :
  ∀ f2 n1 n2,
    no_dash f1 = true → no_dash f2 = true →
    f1 ++ "-" ++ n1 = f2 ++ "-" ++ n2 → f1 = f2 ∧ n1 = n2.
Proof.
  induction f1 as [| c1 f1 IH]; intros [| c2 f2] n1 n2 H1 H2 Heq;
    simpl in *.
  - by simplify_eq.
  - by simplify_eq.
  - by simplify_eq.
  - injection Heq as -> Heq.
    apply andb_prop in H1 as [_ H1]. apply andb_prop in H2 as [_ H2].
    destruct (IH f2 n1 n2 H1 H2 Heq) as [-> ->]. done.
Qed.

(** X12: An address-family alias determines its family text and an
    expression alias its name, whatever they are.  A table alias
    determines both the family and the table name when the family
    texts have no ['-'] in them; with a ['-'] in a family text two
    table aliases made from different families do coincide. *)
Theorem module_alias_injective :
  (∀ f1 f2, MODULE_ALIAS_NFT_FAMILY f1 = MODULE_ALIAS_NFT_FAMILY f2 →
            f1 = f2) ∧
  (∀ n1 n2, MODULE_ALIAS_NFT_EXPR n1 = MODULE_ALIAS_NFT_EXPR n2 →
            n1 = n2) ∧
  (∀ f1 f2 n1 n2,
     no_dash f1 = true → no_dash f2 = true →
     MODULE_ALIAS_NFT_TABLE f1 n1 = MODULE_ALIAS_NFT_TABLE f2 n2 →
     f1 = f2 ∧ n1 = n2) ∧
  (∃ f1 f2 n1 n2,
     MODULE_ALIAS_NFT_TABLE f1 n1 = MODULE_ALIAS_NFT_TABLE f2 n2 ∧
     f1 ≠ f2 ∧ n1 ≠ n2).
Proof.
  unfold MODULE_ALIAS_NFT_FAMILY, MODULE_ALIAS_NFT_TABLE,
    MODULE_ALIAS_NFT_EXPR.
  split; [| split; [| split]].
  - intros f1 f2. simpl. intros [= Heq]. exact Heq.
  - intros n1 n2. simpl. intros [= Heq]. exact Heq.
  - intros f1 f2 n1 n2 H1 H2. simpl. intros [= Heq].
    exact (append_dash_inj f1 f2 n1 n2 H1 H2 Heq).
  - exists "2-x", "2", "y", "x-y". repeat split; discriminate.
Qed.

(** The aliases of the IPv4 family and of its filter table. *)
Example module_alias_strings :
  MODULE_ALIAS_NFT_TABLE "2" "filter" = "nft-table-2-filter" ∧
  MODULE_ALIAS_NFT_FAMILY "2" = "nft-afinfo-2" ∧
  MODULE_ALIAS_NFT_EXPR "cmp" = "nft-expr-cmp".
Proof. repeat split. Qed.

End ModuleAliasFacts.

(** ** Layout of a set element *)

Module SetElemLayoutFacts.
Import Layout SetElemLayout.

(** X14: On both data models a set element is 48 bytes long and 8-byte
    aligned, with the key at offset 8 and the data at offset 24: both
    data values start on a multiple of [__alignof__(u64)], as do their
    second halves, so each 8-byte access of [nft_data_copy] on the key
    or the data of an element is aligned; the alignment the build-time
    check of [nft_data_copy] asks for holds. *)
Theorem nft_set_elem_layout (m : abi) :
  sizeof m nft_set_elem = 48 ∧
  alignof m nft_set_elem = 8 ∧
  field_offset m nft_set_elem_fields "cookie" = Some 0 ∧
  field_offset m nft_set_elem_fields "key" = Some 8 ∧
  field_offset m nft_set_elem_fields "data" = Some 24 ∧
  field_offset m nft_set_elem_fields "flags" = Some 40 ∧
  alignof m nft_data = alignof_u64 ∧
  (∀ f o, (f = "key"%string ∨ f = "data"%string) →
          field_offset m nft_set_elem_fields f = Some o →
          (alignof_u64 | o) ∧ (alignof_u64 | o + 8) ∧
          o + sizeof m nft_data ≤ sizeof m nft_set_elem).
Proof.
  do 7 (split; [destruct m; reflexivity |]).
  assert (Hsize : sizeof m nft_data = 16 ∧ sizeof m nft_set_elem = 48)
    by (destruct m; split; reflexivity).
  destruct Hsize as [-> ->]. unfold alignof_u64.
  intros f o Hf Ho.
  assert (o = 8 ∨ o = 24) as [-> | ->].
  { destruct Hf as [-> | ->]; destruct m; vm_compute in Ho;
      injection Ho as <-; auto. }
  - split; [exists 1; lia | split; [exists 2; lia | lia]].
  - split; [exists 3; lia | split; [exists 4; lia | lia]].
Qed.

End SetElemLayoutFacts.

(** ** The iteration at machine level *)

Module RuleMachineFacts.
Import Rule RuleShape RuleFacts RuleShapeFacts.

Lemma ptr_range_pos (m : Layout.abi) : (2 ^ 16 < 2 ^ RuleMachine.ptr_bits m)%N.
Proof. destruct m; simpl; lia. Qed.

Lemma ptr_wrap_lt (m : Layout.abi) (a : N) :
  (RuleMachine.ptr_wrap m a < 2 ^ RuleMachine.ptr_bits m)%N.
Proof.
  unfold RuleMachine.ptr_wrap. apply N.mod_lt.
  pose proof (ptr_range_pos m). lia.
Qed.

Lemma ptr_wrap_small (m : Layout.abi) (a : N) :
  (a < 2 ^ RuleMachine.ptr_bits m)%N → RuleMachine.ptr_wrap m a = a.
Proof. intros H. unfold RuleMachine.ptr_wrap. apply N.mod_small, H. Qed.

Lemma ptr_wrap_add_l (m : Layout.abi) (a b : N) :
  RuleMachine.ptr_wrap m (RuleMachine.ptr_wrap m a + b)
  = RuleMachine.ptr_wrap m (a + b).
Proof.
  unfold RuleMachine.ptr_wrap. apply N.Div0.add_mod_idemp_l.
Qed.

Lemma machine_step m fuel rule p last e :
  p ≠ last → data rule !! p = Some e →
  RuleMachine.for_each_from m (S fuel) rule p last =
    visit (p, e)
      (RuleMachine.for_each_from m fuel rule
         (RuleMachine.ptr_wrap m (p + RuleMachine.ops_size (ops e))) last).
Proof.
  intros Hne He. cbn [RuleMachine.for_each_from].
  destruct (N.eqb_spec p last); [contradiction |].
  unfold RuleMachine.nft_expr_next. rewrite He. reflexivity.
Qed.

Lemma machine_end m fuel rule last :
  RuleMachine.for_each_from m fuel rule last last = Done [].
Proof.
  destruct fuel; cbn [RuleMachine.for_each_from]; rewrite N.eqb_refl; done.
Qed.

Lemma machine_no_expr m fuel rule p last :
  p ≠ last → data rule !! p = None →
  RuleMachine.for_each_from m (S fuel) rule p last = Fault p.
Proof.
  intros Hne He. cbn [RuleMachine.for_each_from].
  destruct (N.eqb_spec p last); [contradiction |].
  rewrite He. reflexivity.
Qed.

(** An expression of size 0 away from the end marker holds the loop in
    place for ever. *)
Lemma machine_stuck m rule p last e :
  data rule !! p = Some e → RuleMachine.ops_size (ops e) = 0%N →
  (p < 2 ^ RuleMachine.ptr_bits m)%N → p ≠ last →
  ∀ fuel v, RuleMachine.for_each_from m fuel rule p last ≠ Done v.
Proof.
  intros He Hz Hp Hne. induction fuel as [| fuel IH]; intros v.
  - cbn [RuleMachine.for_each_from]. destruct (N.eqb_spec p last); done.
  - rewrite (machine_step m fuel rule p last e Hne He).
    rewrite Hz, N.add_0_r, ptr_wrap_small by exact Hp. intros Hv.
    apply visit_Done in Hv as (v' & Hv' & _). exact (IH v' Hv').
Qed.

(** A run that reaches the end marker read positive sizes, and the
    pointer it started from, advanced by their sum, is the marker. *)
Lemma machine_Done_sizes m rule last :
  ∀ fuel p v,
    (p < 2 ^ RuleMachine.ptr_bits m)%N →
    RuleMachine.for_each_from m fuel rule p last = Done v →
    RuleMachine.successive m rule p (RuleMachine.sizes_read v) ∧
    Forall (λ s, (0 < s)%N) (RuleMachine.sizes_read v) ∧
    RuleMachine.ptr_wrap m (p + total (RuleMachine.sizes_read v)) = last.
Proof.
  induction fuel as [| fuel IH]; intros p v Hp Hv.
  - cbn [RuleMachine.for_each_from] in Hv.
    destruct (N.eqb_spec p last) as [-> |]; [| discriminate].
    injection Hv as <-. simpl.
    rewrite N.add_0_r, ptr_wrap_small by exact Hp. done.
  - destruct (N.eq_dec p last) as [-> | Hne].
    { rewrite machine_end in Hv. injection Hv as <-. simpl.
      rewrite N.add_0_r, ptr_wrap_small by exact Hp. done. }
    destruct (data rule !! p) as [e |] eqn:He.
    2: { rewrite (machine_no_expr m fuel rule p last Hne He) in Hv.
         discriminate. }
    rewrite (machine_step m fuel rule p last e Hne He) in Hv.
    apply visit_Done in Hv as (v' & Hv' & ->).
    destruct (N.eq_dec (RuleMachine.ops_size (ops e)) 0%N) as [Hz | Hnz].
    { rewrite Hz, N.add_0_r, ptr_wrap_small in Hv' by exact Hp.
      exfalso. exact (machine_stuck m rule p last e He Hz Hp Hne _ _ Hv'). }
    destruct (IH _ _ (ptr_wrap_lt m _) Hv') as (Hs & Hpos & Hl).
    unfold RuleMachine.sizes_read in *. cbn [fmap list_fmap snd].
    cbn [RuleMachine.successive].
    split; [split; [exists e; done | exact Hs] |].
    split; [constructor; [lia | exact Hpos] |].
    rewrite ptr_wrap_add_l in Hl.
    unfold total in *. cbn [foldr]. rewrite N.add_assoc. exact Hl.
Qed.

(** Conversely, successive sizes whose sum takes the pointer to the
    marker lead the loop to it in at most as many turns. *)
Lemma machine_hits m rule last (sizes : list N) :
  ∀ fuel p,
    (p < 2 ^ RuleMachine.ptr_bits m)%N →
    RuleMachine.successive m rule p sizes →
    RuleMachine.ptr_wrap m (p + total sizes) = last →
    (length sizes ≤ fuel)%nat →
    ∃ v, RuleMachine.for_each_from m fuel rule p last = Done v.
Proof.
  induction sizes as [| s ss IH]; intros fuel p Hp Hs Hl Hfuel.
  - simpl in Hl. rewrite N.add_0_r, ptr_wrap_small in Hl by exact Hp.
    subst last. exists []. apply machine_end.
  - destruct (N.eq_dec p last) as [-> | Hne].
    { exists []. apply machine_end. }
    destruct Hs as [(e & He & Hsz) Hs].
    simpl in Hfuel. destruct fuel as [| fuel]; [lia |].
    rewrite (machine_step m fuel rule p last e Hne He), Hsz.
    destruct (IH fuel (RuleMachine.ptr_wrap m (p + s))) as [v Hv];
      [apply ptr_wrap_lt | exact Hs | | lia |].
    { rewrite ptr_wrap_add_l. unfold total in *. cbn [foldr] in Hl.
      rewrite N.add_assoc in Hl. exact Hl. }
    rewrite Hv. simpl. eauto.
Qed.

(** A fault is raised only at a pointer that holds no expression. *)
Lemma machine_Fault m rule last :
  ∀ fuel p a, RuleMachine.for_each_from m fuel rule p last = Fault a →
              data rule !! a = None.
Proof.
  induction fuel as [| fuel IH]; intros p a Ha.
  - cbn [RuleMachine.for_each_from] in Ha.
    destruct (N.eqb_spec p last); discriminate.
  - destruct (N.eq_dec p last) as [-> | Hne].
    { rewrite machine_end in Ha. discriminate. }
    destruct (data rule !! p) as [e |] eqn:He.
    + rewrite (machine_step m fuel rule p last e Hne He) in Ha.
      destruct (RuleMachine.for_each_from m fuel rule _ last) eqn:Hr;
        simpl in Ha; try discriminate.
      injection Ha as ->. exact (IH _ _ Hr).
    + rewrite (machine_no_expr m fuel rule p last Hne He) in Ha.
      injection Ha as <-. exact He.
Qed.

(** *** Rules whose expressions all lie within [dlen] bytes *)

Lemma within_lookup rule p e :
  nft_rule_wf rule → RuleMachine.data_within rule →
  data rule !! p = Some e →
  (p + size (ops e) ≤ dlen rule)%N ∧
  RuleMachine.ops_size (ops e) = size (ops e).
Proof.
  intros [_ Hd] Hin He. specialize (Hin p e He). simpl in Hin.
  split; [exact Hin |].
  unfold RuleMachine.ops_size. apply N.mod_small. lia.
Qed.

Lemma within_last m rule :
  nft_rule_wf rule →
  RuleMachine.rule_dlen rule = dlen rule ∧
  RuleMachine.nft_expr_last m rule = dlen rule.
Proof.
  intros [_ Hd]. pose proof (ptr_range_pos m).
  assert (Heq : RuleMachine.rule_dlen rule = dlen rule)
    by (unfold RuleMachine.rule_dlen; apply N.mod_small, Hd).
  split; [exact Heq |].
  unfold RuleMachine.nft_expr_last, RuleMachine.nft_expr_first.
  rewrite Heq, N.add_0_l. apply ptr_wrap_small. lia.
Qed.

(** On such a rule no pointer the loop forms leaves the rule, so the
    machine's loop is the loop on exact offsets. *)
Lemma machine_exact m rule :
  nft_rule_wf rule → RuleMachine.data_within rule →
  ∀ fuel p, (p ≤ dlen rule)%N →
    RuleMachine.for_each_from m fuel rule p (dlen rule)
    = for_each_from fuel rule p (dlen rule).
Proof.
  intros Hwf Hin. pose proof (ptr_range_pos m) as Hr.
  pose proof Hwf as [_ Hd].
  induction fuel as [| fuel IH]; intros p Hp; [reflexivity |].
  destruct (N.eq_dec p (dlen rule)) as [-> | Hne].
  { rewrite machine_end, for_each_from_end. reflexivity. }
  destruct (data rule !! p) as [e |] eqn:He.
  - destruct (within_lookup rule p e Hwf Hin He) as [Hle Hsz].
    rewrite (machine_step m fuel rule p _ e Hne He).
    rewrite (for_each_from_step fuel rule p _ e Hne He).
    rewrite Hsz, ptr_wrap_small by lia. rewrite IH by exact Hle.
    reflexivity.
  - rewrite (machine_no_expr m fuel rule p _ Hne He).
    cbn [for_each_from]. destruct (N.eqb_spec p (dlen rule)); [done |].
    rewrite He. reflexivity.
Qed.

Lemma machine_run_exact m rule fuel :
  nft_rule_wf rule → RuleMachine.data_within rule →
  RuleMachine.nft_rule_for_each_expr m fuel rule
  = nft_rule_for_each_expr fuel rule.
Proof.
  intros Hwf Hin.
  unfold RuleMachine.nft_rule_for_each_expr, nft_rule_for_each_expr.
  destruct (within_last m rule Hwf) as [_ ->].
  unfold RuleMachine.nft_expr_first, nft_expr_first, nft_expr_last.
  apply machine_exact; [done | done | lia].
Qed.

(** On such a rule successive sizes add up without wrapping. *)
Lemma successive_within m rule (sizes : list N) :
  nft_rule_wf rule → RuleMachine.data_within rule →
  ∀ p, (p ≤ dlen rule)%N → RuleMachine.successive m rule p sizes →
       (p + total sizes ≤ dlen rule)%N.
Proof.
  intros Hwf Hin. pose proof (ptr_range_pos m) as Hr.
  pose proof Hwf as [_ Hd].
  induction sizes as [| s ss IH]; intros p Hp Hs.
  - simpl. lia.
  - destruct Hs as [(e & He & Hsz) Hs].
    destruct (within_lookup rule p e Hwf Hin He) as [Hle Hsz'].
    rewrite Hsz' in Hsz. subst s.
    rewrite ptr_wrap_small in Hs by lia.
    specialize (IH _ Hle Hs). unfold total in *. cbn [foldr]. lia.
Qed.

(** C8: the iteration reaches its end marker (for some number of turns)
    if and only if the sizes of the successive expressions met from
    offset 0 are all strictly positive and their sum is [dlen] modulo
    the range of a pointer, the addition in [nft_expr_next] being a
    pointer addition.  When no run of successive sizes sums to [dlen]
    modulo that range, the test against the end marker never succeeds:
    whatever the number of turns granted, the loop is still going when
    they are used up, or it has walked onto memory that holds no
    expression.  On a rule whose expressions all lie within its [dlen]
    bytes the sum is exact. *)
Theorem nft_rule_for_each_expr_reaches_end_mod
        (m : Layout.abi) (rule : nft_rule) :
  ((∃ fuel v, RuleMachine.nft_rule_for_each_expr m fuel rule = Done v) ↔
   RuleMachine.hits_dlen m rule) ∧
  (¬ RuleMachine.sums_to_dlen m rule →
   ∀ fuel,
     (∀ v, RuleMachine.nft_rule_for_each_expr m fuel rule ≠ Done v) ∧
     (RuleMachine.nft_rule_for_each_expr m fuel rule = OutOfFuel ∨
      ∃ a, RuleMachine.nft_rule_for_each_expr m fuel rule = Fault a ∧
           data rule !! a = None)) ∧
  (nft_rule_wf rule → RuleMachine.data_within rule →
   (RuleMachine.hits_dlen m rule ↔ RuleMachine.hits_dlen_exactly m rule)).
Proof.
  pose proof (ptr_range_pos m) as Hr.
  assert (H0 : (0 < 2 ^ RuleMachine.ptr_bits m)%N) by lia.
  unfold RuleMachine.nft_rule_for_each_expr, RuleMachine.nft_expr_first.
  split; [split | split].
  - intros (fuel & v & Hv).
    destruct (machine_Done_sizes _ _ _ _ _ _ H0 Hv) as (Hs & Hp & Hl).
    exists (RuleMachine.sizes_read v). rewrite N.add_0_l in Hl. done.
  - intros (sizes & Hs & Hp & Hl).
    exists (length sizes).
    apply (machine_hits m rule _ sizes); try done.
  - intros Hno fuel.
    assert (Hnd : ∀ v, RuleMachine.for_each_from m fuel rule 0%N
                         (RuleMachine.nft_expr_last m rule) ≠ Done v).
    { intros v Hv. apply Hno.
      destruct (machine_Done_sizes _ _ _ _ _ _ H0 Hv) as (Hs & _ & Hl).
      exists (RuleMachine.sizes_read v). rewrite N.add_0_l in Hl. done. }
    split; [exact Hnd |].
    destruct (RuleMachine.for_each_from m fuel rule 0%N
                (RuleMachine.nft_expr_last m rule)) as [v | a |] eqn:Hres.
    + exfalso. exact (Hnd v eq_refl).
    + right. exists a. split; [done |].
      exact (machine_Fault _ _ _ _ _ _ Hres).
    + left. done.
  - intros Hwf Hin. pose proof Hwf as [_ Hd].
    destruct (within_last m rule Hwf) as [Hdlen Hlast].
    unfold RuleMachine.hits_dlen, RuleMachine.hits_dlen_exactly.
    rewrite Hdlen, Hlast.
    split; intros (sizes & Hs & Hp & Ht); exists sizes;
      (split; [exact Hs |]); (split; [exact Hp |]);
      pose proof (successive_within m rule sizes Hwf Hin 0%N
                    ltac:(lia) Hs) as Hsum;
      rewrite N.add_0_l in Hsum.
    + rewrite ptr_wrap_small in Ht by lia. exact Ht.
    + rewrite ptr_wrap_small by lia. exact Ht.
Qed.

(** On a 32-bit machine the loop over [wrap_rule] reaches its end
    marker after two visits, the sizes 16 and 4294967288 taking the
    pointer round to offset 8, although no run of the successive sizes
    sums exactly to the [dlen] of 8. *)
Lemma wrap_rule_reaches_end_inexactly :
  RuleMachine.nft_rule_for_each_expr Layout.ILP32 2 RuleMachine.wrap_rule
  = Done [(0%N, mk_expr "first" 16); (16%N, mk_expr "second" 4294967288)] ∧
  ¬ RuleMachine.hits_dlen_exactly Layout.ILP32 RuleMachine.wrap_rule ∧
  ¬ ((∃ fuel v, RuleMachine.nft_rule_for_each_expr
                  Layout.ILP32 fuel RuleMachine.wrap_rule = Done v) ↔
     RuleMachine.hits_dlen_exactly Layout.ILP32 RuleMachine.wrap_rule).
Proof.
  assert (Hrun : RuleMachine.nft_rule_for_each_expr
                   Layout.ILP32 2 RuleMachine.wrap_rule
                 = Done [(0%N, mk_expr "first" 16);
                         (16%N, mk_expr "second" 4294967288)])
    by (vm_compute; reflexivity).
  assert (Hno : ¬ RuleMachine.hits_dlen_exactly
                    Layout.ILP32 RuleMachine.wrap_rule).
  { intros (sizes & Hs & _ & Ht).
    destruct sizes as [| s1 sizes]; [vm_compute in Ht; discriminate |].
    destruct Hs as [(e1 & He1 & Hs1) Hs].
    vm_compute in He1. injection He1 as <-. vm_compute in Hs1. subst s1.
    destruct sizes as [| s2 sizes]; [vm_compute in Ht; discriminate |].
    destruct Hs as [(e2 & He2 & Hs2) Hs].
    vm_compute in He2. injection He2 as <-. vm_compute in Hs2. subst s2.
    destruct sizes as [| s3 sizes]; [vm_compute in Ht; discriminate |].
    destruct Hs as [(e3 & He3 & _) _].
    vm_compute in He3. discriminate. }
  split; [exact Hrun |]. split; [exact Hno |].
  intros [Hto _]. apply Hno, Hto. eauto.
Qed.

(** *** What a run over a rule within its bounds went through *)

Lemma exact_run_stores (rule : nft_rule) (fuel : nat)
      (v : list (N * nft_expr)) :
  nft_rule_for_each_expr fuel rule = Done v →
  rule_stores rule v.*2 ∧
  v = zip (offsets_from 0 v.*2) v.*2 ∧
  Forall (λ x, data rule !! x.1 = Some x.2 ∧
               (x.1 + size (ops x.2) ≤ dlen rule)%N) v ∧
  (∀ i j x y, v !! i = Some x → v !! j = Some y → (i < j)%nat →
              (x.1 + size (ops x.2) ≤ y.1)%N).
Proof.
  unfold nft_rule_for_each_expr, nft_expr_first, nft_expr_last. intros Hv.
  destruct (for_each_from_Done_stored _ _ _ _ _ Hv) as (Hst & Hoff & Hpos & Hl).
  rewrite N.add_0_l in Hl.
  assert (Hzip : v = zip (offsets_from 0 v.*2) v.*2).
  { rewrite <- Hoff. symmetry. apply zip_fst_snd_eq. }
  split; [split; [exact Hst | split; [symmetry; exact Hl | exact Hpos]] |].
  split; [exact Hzip |].
  split.
  - rewrite Forall_forall. intros [off e] Hin. simpl. split.
    + clear -Hin Hst Hzip. rewrite Hzip in Hin.
      revert Hin Hst. generalize 0%N. generalize (v.*2). clear.
      intros es. induction es as [| e' es IH]; intros p Hin Hst.
      { inversion Hin. }
      cbn [offsets_from zip zip_with] in Hin. destruct Hst as [He' Hst].
      apply elem_of_cons in Hin as [[= -> ->] | Hin]; [exact He' |].
      eapply IH; eauto.
    + pose proof (stored_within v.*2 0%N) as Hall.
      rewrite <- Hzip, Forall_forall in Hall.
      apply Hall in Hin. simpl in Hin. lia.
  - intros i j x y Hx Hy Hij. rewrite Hzip in Hx, Hy.
    eapply stored_in_order; eauto.
Qed.

Lemma exact_run_turns (rule : nft_rule) (fuel : nat)
      (v : list (N * nft_expr)) :
  nft_rule_for_each_expr fuel rule = Done v →
  (length v ≤ fuel)%nat ∧
  (N.of_nat (length v) ≤ dlen rule)%N ∧
  (∀ fuel', (length v ≤ fuel')%nat →
            nft_rule_for_each_expr fuel' rule = Done v).
Proof.
  unfold nft_rule_for_each_expr, nft_expr_first, nft_expr_last. intros Hv.
  pose proof (for_each_from_Done_turns _ _ _ _ _ Hv) as Hturns.
  destruct (for_each_from_Done_stored _ _ _ _ _ Hv) as (Hst & Hoff & Hpos & Hl).
  rewrite N.add_0_l in Hl.
  pose proof (total_ge_length _ Hpos) as Hlen.
  rewrite length_fmap, Hl in Hlen.
  split; [exact Hturns |]. split; [exact Hlen |].
  intros fuel' Hf.
  rewrite (for_each_from_stored rule (dlen rule) v.*2 fuel' 0%N);
    [| done | done | lia | rewrite length_fmap; lia].
  rewrite <- Hoff, zip_fst_snd_eq. reflexivity.
Qed.

Lemma sample_rule_within :
  nft_rule_wf sample_rule ∧ RuleMachine.data_within sample_rule.
Proof.
  split; [split; vm_compute; reflexivity |].
  unfold RuleMachine.data_within.
  apply (bool_decide_unpack _). vm_compute. exact I.
Qed.

(** X3: On a rule whose expression objects all lie within its [dlen]
    bytes, the iteration, run with the machine's pointer arithmetic,
    reaches its end marker only if the rule stores a contiguous
    sequence of expressions, and what it visited is that sequence: the
    visited expressions are stored one after the other from offset 0
    over exactly [dlen] bytes, each at least a byte long, at the
    offsets reported, and no two of them overlap. *)
Theorem nft_rule_for_each_expr_within_stores
        (m : Layout.abi) (rule : nft_rule) (fuel : nat)
        (v : list (N * nft_expr)) :
  nft_rule_wf rule → RuleMachine.data_within rule →
  RuleMachine.nft_rule_for_each_expr m fuel rule = Done v →
  rule_stores rule v.*2 ∧
  v = zip (offsets_from 0 v.*2) v.*2 ∧
  (∀ i j x y, v !! i = Some x → v !! j = Some y → (i < j)%nat →
              (x.1 + size (ops x.2) ≤ y.1)%N).
Proof.
  intros Hwf Hin Hv. rewrite machine_run_exact in Hv by done.
  destruct (exact_run_stores rule fuel v Hv) as (H1 & H2 & _ & H4).
  done.
Qed.

Lemma nft_rule_for_each_expr_within_stores_witness :
  let v := zip (offsets_from 0 sample_exprs) sample_exprs in
  rule_stores sample_rule v.*2 ∧
  v = zip (offsets_from 0 v.*2) v.*2 ∧
  (∀ i j x y, v !! i = Some x → v !! j = Some y → (i < j)%nat →
              (x.1 + size (ops x.2) ≤ y.1)%N).
Proof.
  apply (nft_rule_for_each_expr_within_stores Layout.ILP32 sample_rule 3).
  - apply sample_rule_within.
  - apply sample_rule_within.
  - vm_compute. reflexivity.
Defined.

(** X4: On a rule whose expression objects all lie within its [dlen]
    bytes, the iteration, run with the machine's pointer arithmetic, is
    bounded by the rule's length: a run that reaches the end marker
    visited at most [dlen] expressions, fewer than 65536, used one turn
    per visit, and any run granted at least that many turns, [dlen]
    turns in particular, reaches the end marker with the same
    visits. *)
Theorem nft_rule_for_each_expr_within_turns
        (m : Layout.abi) (rule : nft_rule) (fuel : nat)
        (v : list (N * nft_expr)) :
  nft_rule_wf rule → RuleMachine.data_within rule →
  RuleMachine.nft_rule_for_each_expr m fuel rule = Done v →
  (length v ≤ fuel)%nat ∧
  (N.of_nat (length v) ≤ dlen rule)%N ∧
  (N.of_nat (length v) < 2 ^ 16)%N ∧
  (∀ fuel', (length v ≤ fuel')%nat →
            RuleMachine.nft_rule_for_each_expr m fuel' rule = Done v) ∧
  RuleMachine.nft_rule_for_each_expr m (N.to_nat (dlen rule)) rule = Done v.
Proof.
  intros Hwf Hin Hv. rewrite machine_run_exact in Hv by done.
  destruct (exact_run_turns rule fuel v Hv) as (Hturns & Hlen & Hstable).
  pose proof Hwf as [_ Hd].
  split; [exact Hturns |]. split; [exact Hlen |]. split; [lia |].
  split.
  - intros fuel' Hf. rewrite machine_run_exact by done.
    apply Hstable, Hf.
  - rewrite machine_run_exact by done. apply Hstable. lia.
Qed.

Lemma nft_rule_for_each_expr_within_turns_witness :
  let v := zip (offsets_from 0 sample_exprs) sample_exprs in
  (length v ≤ 5)%nat ∧
  (N.of_nat (length v) ≤ dlen sample_rule)%N ∧
  (N.of_nat (length v) < 2 ^ 16)%N ∧
  (∀ fuel', (length v ≤ fuel')%nat →
            RuleMachine.nft_rule_for_each_expr Layout.LP64 fuel' sample_rule
            = Done v) ∧
  RuleMachine.nft_rule_for_each_expr
    Layout.LP64 (N.to_nat (dlen sample_rule)) sample_rule = Done v.
Proof.
  apply (nft_rule_for_each_expr_within_turns Layout.LP64 sample_rule 5).
  - apply sample_rule_within.
  - apply sample_rule_within.
  - vm_compute. reflexivity.
Defined.

(** Without the bound on where the expressions lie, a run on a 32-bit
    machine can visit more expressions than [dlen] has bytes. *)
Example wrap_rule_more_visits_than_bytes :
  RuleMachine.nft_rule_for_each_expr Layout.ILP32 2
    {| handle := 13; dlen := 1;
       data := {[ 0%N := mk_expr "first" 2147483648;
                  2147483648%N := mk_expr "second" 2147483649 ]} |}
  = Done [(0%N, mk_expr "first" 2147483648);
          (2147483648%N, mk_expr "second" 2147483649)].
Proof. vm_compute. reflexivity. Qed.

(** *** [NFT_EXPR_SIZE] in the arithmetic of [size_t] *)

(** Masking off the low [k] bits of a [w]-bit value rounds it down to a
    multiple of [2 ^ k]. *)
Lemma land_mask (y k w : Z) :
  0 ≤ k → 0 ≤ w → 0 ≤ y < 2 ^ w →
  Z.land y (Z.lnot (2 ^ k - 1) mod 2 ^ w) = 2 ^ k * (y / 2 ^ k).
Proof.
  intros Hk Hw Hy.
  rewrite <- (Z.land_ones (Z.lnot (2 ^ k - 1)) w) by exact Hw.
  rewrite (Z.land_comm (Z.lnot (2 ^ k - 1))), Z.land_assoc.
  rewrite Z.land_ones by exact Hw. rewrite (Z.mod_small y) by exact Hy.
  rewrite <- Z.ldiff_land.
  replace (2 ^ k - 1) with (Z.ones k) by (rewrite Z.ones_equiv; lia).
  rewrite Z.ldiff_ones_r by exact Hk.
  rewrite Z.shiftr_div_pow2, Z.shiftl_mul_pow2 by exact Hk.
  apply Z.mul_comm.
Qed.

Lemma ALIGN_rounds_down (m : Layout.abi) (x : Z) :
  RuleMachine.ALIGN m x (Layout.ptr_bytes m)
  = Layout.ptr_bytes m
    * (RuleMachine.size_t_wrap m (x + (Layout.ptr_bytes m - 1))
       / Layout.ptr_bytes m).
Proof.
  unfold RuleMachine.ALIGN, RuleMachine.size_t_wrap.
  destruct m; cbn [Layout.ptr_bytes RuleMachine.ptr_bits].
  - apply (land_mask _ 2 32); [lia | lia |].
    apply Z.mod_pos_bound. lia.
  - apply (land_mask _ 3 64); [lia | lia |].
    apply Z.mod_pos_bound. lia.
Qed.

Lemma divide_mod (a b n : Z) : n ≠ 0 → (a | b) → (a | n) → (a | b mod n).
Proof.
  intros Hn Hb Hdn. rewrite Z.mod_eq by exact Hn.
  apply Z.divide_sub_r; [exact Hb |]. apply Z.divide_mul_l, Hdn.
Qed.

(** X6: [NFT_EXPR_SIZE(size)], computed as the macro is in the
    arithmetic of [size_t], is always a multiple of the alignment of
    [struct nft_expr].  While [size] plus the header and one alignment
    unit stays within the range of [size_t], it is the header plus
    [size] rounded up: at least header plus [size], less than that
    plus one alignment unit, exactly header plus [size] when [size] is
    aligned, and growing with [size].  At the top of the range the
    rounding wraps: for the largest [size_t] the macro yields just the
    size of the header. *)
Theorem NFT_EXPR_SIZE_size_t (m : Layout.abi) (size size' : Z) :
  0 ≤ size' ≤ size → size < 2 ^ Z.of_N (RuleMachine.ptr_bits m) →
  (Layout.alignof m nft_expr_t | RuleMachine.NFT_EXPR_SIZE m size) ∧
  (size + Layout.sizeof m nft_expr_t + Layout.alignof m nft_expr_t
   ≤ 2 ^ Z.of_N (RuleMachine.ptr_bits m) →
   Layout.sizeof m nft_expr_t + size ≤ RuleMachine.NFT_EXPR_SIZE m size ∧
   RuleMachine.NFT_EXPR_SIZE m size
   < Layout.sizeof m nft_expr_t + size + Layout.alignof m nft_expr_t ∧
   ((Layout.alignof m nft_expr_t | size) →
    RuleMachine.NFT_EXPR_SIZE m size = Layout.sizeof m nft_expr_t + size) ∧
   RuleMachine.NFT_EXPR_SIZE m size' ≤ RuleMachine.NFT_EXPR_SIZE m size) ∧
  RuleMachine.NFT_EXPR_SIZE m (2 ^ Z.of_N (RuleMachine.ptr_bits m) - 1)
  = Layout.sizeof m nft_expr_t.
Proof.
  intros Hsz Hmax.
  assert (Hhdr : Layout.sizeof m nft_expr_t = Layout.ptr_bytes m)
    by (destruct m; reflexivity).
  assert (Hal : Layout.alignof m nft_expr_t = Layout.ptr_bytes m)
    by (destruct m; reflexivity).
  set (M := 2 ^ Z.of_N (RuleMachine.ptr_bits m)) in *.
  assert (HM : Layout.ptr_bytes m * 4 ≤ M ∧ (Layout.ptr_bytes m | M)).
  { unfold M. destruct m; simpl; (split; [lia |]).
    - exists (2 ^ 30). lia.
    - exists (2 ^ 61). lia. }
  destruct HM as [HM Hdiv].
  pose proof (ptr_bytes_pos m) as Hpos.
  assert (Hp4 : 4 ≤ Layout.ptr_bytes m) by (destruct m; simpl; lia).
  unfold RuleMachine.NFT_EXPR_SIZE.
  rewrite Hhdr, Hal, !ALIGN_rounds_down.
  unfold RuleMachine.size_t_wrap. fold M.
  assert (Hexact : ∀ s, 0 ≤ s → s + Layout.ptr_bytes m + Layout.ptr_bytes m ≤ M →
            (Layout.ptr_bytes m
             + Layout.ptr_bytes m
               * ((s + (Layout.ptr_bytes m - 1)) mod M / Layout.ptr_bytes m))
            mod M
            = Layout.ptr_bytes m
              + Layout.align_up s (Layout.ptr_bytes m)).
  { intros s Hs Hfit.
    destruct (align_up_bounds s (Layout.ptr_bytes m) Hpos) as [Hb _].
    rewrite (Z.mod_small (s + _)) by lia.
    unfold Layout.align_up in *.
    replace (s + (Layout.ptr_bytes m - 1)) with (s + Layout.ptr_bytes m - 1)
      by lia.
    rewrite Z.mod_small by lia. lia. }
  split; [| split].
  - apply divide_mod; [lia | | exact Hdiv].
    apply Z.divide_add_r; [apply Z.divide_refl |].
    apply Z.divide_mul_l, Z.divide_refl.
  - intros Hfit.
    rewrite (Hexact size) by lia. rewrite (Hexact size') by lia.
    destruct (align_up_bounds size (Layout.ptr_bytes m) Hpos) as [Hb _].
    split; [lia |]. split; [lia |]. split.
    + intros Hd. rewrite align_up_of_multiple by done. reflexivity.
    + unfold Layout.align_up.
      assert ((size' + Layout.ptr_bytes m - 1) / Layout.ptr_bytes m
              ≤ (size + Layout.ptr_bytes m - 1) / Layout.ptr_bytes m)
        by (apply Z.div_le_mono; lia).
      nia.
  - replace (M - 1 + (Layout.ptr_bytes m - 1))
      with (Layout.ptr_bytes m - 2 + 1 * M) by lia.
    rewrite Z.mod_add by lia.
    rewrite (Z.mod_small (Layout.ptr_bytes m - 2)) by lia.
    rewrite (Z.div_small (Layout.ptr_bytes m - 2)) by lia.
    rewrite Z.mul_0_r, Z.add_0_r. apply Z.mod_small. lia.
Qed.

Lemma NFT_EXPR_SIZE_size_t_witness :
  (Layout.alignof Layout.LP64 nft_expr_t
   | RuleMachine.NFT_EXPR_SIZE Layout.LP64 13) ∧
  (13 + Layout.sizeof Layout.LP64 nft_expr_t
   + Layout.alignof Layout.LP64 nft_expr_t
   ≤ 2 ^ Z.of_N (RuleMachine.ptr_bits Layout.LP64) →
   Layout.sizeof Layout.LP64 nft_expr_t + 13
   ≤ RuleMachine.NFT_EXPR_SIZE Layout.LP64 13 ∧
   RuleMachine.NFT_EXPR_SIZE Layout.LP64 13
   < Layout.sizeof Layout.LP64 nft_expr_t + 13
     + Layout.alignof Layout.LP64 nft_expr_t ∧
   ((Layout.alignof Layout.LP64 nft_expr_t | 13) →
    RuleMachine.NFT_EXPR_SIZE Layout.LP64 13
    = Layout.sizeof Layout.LP64 nft_expr_t + 13) ∧
   RuleMachine.NFT_EXPR_SIZE Layout.LP64 5
   ≤ RuleMachine.NFT_EXPR_SIZE Layout.LP64 13) ∧
  RuleMachine.NFT_EXPR_SIZE Layout.LP64
    (2 ^ Z.of_N (RuleMachine.ptr_bits Layout.LP64) - 1)
  = Layout.sizeof Layout.LP64 nft_expr_t.
Proof.
  apply (NFT_EXPR_SIZE_size_t Layout.LP64 13 5); simpl; lia.
Defined.

Example NFT_EXPR_SIZE_values :
  RuleMachine.NFT_EXPR_SIZE Layout.LP64 13 = 24 ∧
  RuleMachine.NFT_EXPR_SIZE Layout.ILP32 13 = 20 ∧
  RuleMachine.NFT_EXPR_SIZE Layout.LP64 0 = 8 ∧
  RuleMachine.NFT_EXPR_SIZE Layout.LP64 (2 ^ 64 - 1) = 8 ∧
  RuleMachine.NFT_EXPR_SIZE Layout.LP64 (2 ^ 64 - 8) = 0.
Proof. repeat split; vm_compute; reflexivity. Qed.

End RuleMachineFacts.

(** ** The 16-bit fields of a chain *)

Module ChainUseFacts.
Import Chain ChainFacts ChainUse.







(** *** Many jumps to one chain *)






End ChainUseFacts.
